(** * KetonAI chat widget: conversation controller and typewriter revealer

    A shallow embedding of the logic of the page component:
    - [TypewriterText]: the effect that reveals [fullText] one UTF-16 code
      unit at a time, driven by an interval timer;
    - [handleSendMessage]: the async handler that appends a user message and
      an empty assistant placeholder, issues one request, and on completion
      rewrites the placeholder's text; with [handleKeyPress] and
      [handleInputFocus], the other handlers of the input;
    - the landing animation that types the prompt into the input's
      placeholder until the chat is shown.

    Modelling conventions.
    - A JavaScript string is the list of its UTF-16 code units ([jsstring]);
      [length], [slice] and [===] act on code units, as in the language.
    - React state is a record; a setter is a function on that record. Setters
      called with an updater function ([setMessages (prev => ...)]) apply the
      updater to the current value, so updates made by different handler
      invocations compose in the order in which they run.
    - [crypto.randomUUID()] and [new Date()] are inputs of the handler, in
      program order. The step relation below assumes what the generator
      promises: an id it returns has not been returned before.
    - An [async] function is split at its suspension point: the part that
      runs synchronously up to the first [await], and the continuation that
      runs when the awaited request settles. *)

From Stdlib Require Import String Ascii NArith ZArith Lia.
From stdpp Require Import base decidable option numbers list.

Local Open Scope list_scope.

(** ** JavaScript strings *)

Definition jsstring : Type := list N.

(** Code units of an ASCII literal. *)
Definition js (s : string) : jsstring :=
  List.map N_of_ascii (list_ascii_of_string s).

(** ECMAScript [WhiteSpace] and [LineTerminator] code points, the set that
    [String.prototype.trim] strips. All of them lie in the BMP. *)
Definition isWhiteSpace (c : N) : bool :=
  ((9 <=? c) && (c <=? 13) ||
   (c =? 32) || (c =? 160) || (c =? 5760) ||
   (8192 <=? c) && (c <=? 8202) ||
   (c =? 8232) || (c =? 8233) || (c =? 8239) || (c =? 8287) ||
   (c =? 12288) || (c =? 65279))%N.

Fixpoint trimStart (s : jsstring) : jsstring :=
  match s with
  | [] => []
  | c :: s' => if isWhiteSpace c then trimStart s' else s
  end.

Definition trimEnd (s : jsstring) : jsstring :=
  rev (trimStart (rev s)).

Definition trim (s : jsstring) : jsstring :=
  trimEnd (trimStart s).

(** JavaScript truthiness of a string: only the empty string is falsy. *)
Definition truthy (s : jsstring) : bool :=
  match s with
  | [] => false
  | _ :: _ => true
  end.

(** [s.slice(0, n)] for a non-negative [n]. *)
Definition slice0 (s : jsstring) (n : nat) : jsstring := take n s.

(** ** Messages and component state *)

Record Message : Type := mkMessage {
  id : jsstring;
  text : jsstring;
  isUser : bool;
  timestamp : Z
}.

Record State : Type := mkState {
  messages : list Message;
  inputValue : jsstring;
  isTyping : bool;
  showChat : bool;
  logoVisible : bool
}.

(** The values passed to [useState]. *)
Definition initialState : State :=
  {| messages := []; inputValue := []; isTyping := false;
     showChat := false; logoVisible := true |}.

Definition setMessages (f : list Message -> list Message) (s : State) : State :=
  {| messages := f (messages s); inputValue := inputValue s;
     isTyping := isTyping s; showChat := showChat s;
     logoVisible := logoVisible s |}.

Definition setInputValue (v : jsstring) (s : State) : State :=
  {| messages := messages s; inputValue := v;
     isTyping := isTyping s; showChat := showChat s;
     logoVisible := logoVisible s |}.

Definition setIsTyping (b : bool) (s : State) : State :=
  {| messages := messages s; inputValue := inputValue s;
     isTyping := b; showChat := showChat s;
     logoVisible := logoVisible s |}.

Definition setShowChat (b : bool) (s : State) : State :=
  {| messages := messages s; inputValue := inputValue s;
     isTyping := isTyping s; showChat := b;
     logoVisible := logoVisible s |}.

Definition setLogoVisible (b : bool) (s : State) : State :=
  {| messages := messages s; inputValue := inputValue s;
     isTyping := isTyping s; showChat := showChat s;
     logoVisible := b |}.

(** ** The request and its outcomes *)

(** What [response.text()] settles to. *)
Inductive BodyOutcome : Type :=
  | TextRejects (err : jsstring)
  | TextResolves (fullText : jsstring).

(** What [fetch] settles to. [fetch] resolves for every HTTP status; it
    rejects only when no response is obtained. *)
Inductive FetchOutcome : Type :=
  | FetchRejects (err : jsstring)
  | FetchResolves (status : N) (body : BodyOutcome).

Definition ok_status (status : N) : bool :=
  ((200 <=? status) && (status <=? 299))%N.

(** A suspended invocation of [handleSendMessage]: the variables its
    continuation closes over, and the [message] field of the body it sent. *)
Record Pending : Type := mkPending {
  placeholderId : jsstring;
  requestMessage : jsstring
}.

(** Effects other than state updates. *)
Inductive Effect : Type :=
  | Fetch (message : jsstring)
  | ConsoleError (err : jsstring).

Definition fallbackText : jsstring :=
  js "Oops! Something went wrong connecting to the server.".

(** ** handleSendMessage *)

(** [{ ...msg, text: t }] *)
Definition withText (msg : Message) (t : jsstring) : Message :=
  {| id := id msg; text := t; isUser := isUser msg;
     timestamp := timestamp msg |}.

(** [prev.map((msg) => msg.id === placeholderId ? { ...msg, text: t } : msg)] *)
Definition replaceText (pid t : jsstring) (prev : list Message) : list Message :=
  List.map (fun msg => if decide (id msg = pid) then withText msg t else msg) prev.

(** The synchronous part, up to [await fetch(...)]. [uuid1], [now1] are the
    results of the calls made for the user message, [uuid2], [now2] those made
    for the placeholder. *)
Definition handleSendMessage_start
    (uuid1 : jsstring) (now1 : Z) (uuid2 : jsstring) (now2 : Z)
    (s : State) : State * option Pending * list Effect :=
  if negb (truthy (trim (inputValue s))) then (s, None, [])
  else
    let userMessage :=
      {| id := uuid1; text := inputValue s; isUser := true;
         timestamp := now1 |} in
    let s1 := setMessages (fun prev => prev ++ [userMessage]) s in
    let s2 := setInputValue [] s1 in
    let s3 := setShowChat true s2 in
    let s4 := setLogoVisible false s3 in
    let s5 := setIsTyping true s4 in
    let placeholderId := uuid2 in
    let s6 :=
      setMessages
        (fun prev =>
           prev ++ [ {| id := placeholderId; text := []; isUser := false;
                        timestamp := now2 |} ]) s5 in
    (s6,
     Some {| placeholderId := placeholderId;
             requestMessage := text userMessage |},
     [Fetch (text userMessage)]).

(** How a block of the handler ends. *)
Inductive Completion : Type :=
  | Normal
  | Throw (err : jsstring).

(** The rest of the [try] block, once the request has settled. *)
Definition tryBlock (pid : jsstring) (o : FetchOutcome) (s : State)
    : Completion * State * list Effect :=
  match o with
  | FetchRejects err => (Throw err, s, [])
  | FetchResolves _ (TextRejects err) => (Throw err, s, [])
  | FetchResolves _ (TextResolves fullText) =>
      (Normal, setMessages (replaceText pid fullText) s, [])
  end.

Definition catchBlock (pid : jsstring) (err : jsstring) (s : State)
    : Completion * State * list Effect :=
  (Normal, setMessages (replaceText pid fallbackText) s, [ConsoleError err]).

Definition finallyBlock (s : State) : Completion * State * list Effect :=
  (Normal, setIsTyping false s, []).

(** [try { ... } catch (err) { ... } finally { ... }]: the [catch] block runs
    when the [try] block throws; the [finally] block always runs, and the
    statement completes as the [finally] block does if that one is abrupt,
    otherwise as the [try]/[catch] part did. *)
Definition handleSendMessage_resume (pid : jsstring) (o : FetchOutcome)
    (s : State) : Completion * State * list Effect :=
  let '(c1, s1, e1) := tryBlock pid o s in
  let '(c2, s2, e2) :=
    match c1 with
    | Normal => (Normal, s1, [])
    | Throw err => catchBlock pid err s1
    end in
  let '(c3, s3, e3) := finallyBlock s2 in
  (match c3 with Normal => c2 | Throw err => Throw err end,
   s3, e1 ++ e2 ++ e3).

(** ** The page as a transition system

    Handler invocations interleave on the single UI thread: between the
    synchronous part of one invocation and its continuation, the user may
    type, send again, and other continuations may run. A configuration holds
    the component state, the suspended invocations, and the log of the
    effects performed so far. *)

Record Config : Type := mkConfig {
  ui : State;
  pending : list Pending;
  effects : list Effect
}.

Definition initialConfig : Config :=
  {| ui := initialState; pending := []; effects := [] |}.

(** [handleInputFocus] *)
Definition handleInputFocus (s : State) : State :=
  if negb (showChat s) then setLogoVisible false (setShowChat true s) else s.

(** [handleKeyPress]: [e.key === "Enter"] starts [handleSendMessage]; any
    other key does nothing here. *)
Definition handleKeyPress (key : jsstring)
    (uuid1 : jsstring) (now1 : Z) (uuid2 : jsstring) (now2 : Z)
    (s : State) : State * option Pending * list Effect :=
  if decide (key = js "Enter")
  then handleSendMessage_start uuid1 now1 uuid2 now2 s
  else (s, None, []).

Inductive Event : Type :=
  | Input (v : jsstring)
      (* onChange: setInputValue(e.target.value) *)
  | Focus
      (* onFocus: handleInputFocus() *)
  | Send (uuid1 : jsstring) (now1 : Z) (uuid2 : jsstring) (now2 : Z)
      (* send button: handleSendMessage() *)
  | KeyPress (key : jsstring)
      (uuid1 : jsstring) (now1 : Z) (uuid2 : jsstring) (now2 : Z)
      (* onKeyPress: handleKeyPress(e) *)
  | Settle (pid : jsstring) (o : FetchOutcome).
      (* the request of the invocation holding [pid] settles *)

Definition removePending (pid : jsstring) (ps : list Pending) : list Pending :=
  List.filter (fun p => negb (bool_decide (placeholderId p = pid))) ps.

(** Book-keeping for an invocation of the handler: its state, the invocation
    to suspend if it reached the request, and its effects. *)
Definition invoke (r : State * option Pending * list Effect) (c : Config)
    : Config :=
  let '(s, p, e) := r in
  {| ui := s;
     pending := pending c ++ match p with Some p => [p] | None => [] end;
     effects := effects c ++ e |}.

Definition applyEvent (ev : Event) (c : Config) : Config :=
  match ev with
  | Input v =>
      {| ui := setInputValue v (ui c); pending := pending c;
         effects := effects c |}
  | Focus =>
      {| ui := handleInputFocus (ui c); pending := pending c;
         effects := effects c |}
  | Send uuid1 now1 uuid2 now2 =>
      invoke (handleSendMessage_start uuid1 now1 uuid2 now2 (ui c)) c
  | KeyPress key uuid1 now1 uuid2 now2 =>
      invoke (handleKeyPress key uuid1 now1 uuid2 now2 (ui c)) c
  | Settle pid o =>
      let '(_, s, e) := handleSendMessage_resume pid o (ui c) in
      {| ui := s; pending := removePending pid (pending c);
         effects := effects c ++ e |}
  end.

Definition run (evs : list Event) (c : Config) : Config :=
  fold_left (fun c ev => applyEvent ev c) evs c.

Definition ids (ms : list Message) : list jsstring := List.map id ms.

(** The ids the generator hands to an invocation are new: distinct from each
    other and the ids of no message so far. *)
Definition fresh (c : Config) (uuid1 uuid2 : jsstring) : Prop :=
  uuid1 <> uuid2 /\
  (uuid1 ∉ ids (messages (ui c))) /\ (uuid2 ∉ ids (messages (ui c))).

(** When an event can occur. An invocation of the handler receives fresh
    ids; a [Settle] concerns an invocation that is suspended. *)
Definition enabled (c : Config) (ev : Event) : Prop :=
  match ev with
  | Input _ | Focus => True
  | Send uuid1 _ uuid2 _ | KeyPress _ uuid1 _ uuid2 _ => fresh c uuid1 uuid2
  | Settle pid _ => pid ∈ List.map placeholderId (pending c)
  end.

Inductive reachable : Config -> Prop :=
  | reachable_init : reachable initialConfig
  | reachable_step c ev :
      reachable c -> enabled c ev -> reachable (applyEvent ev c).

(** Events that may start a request. *)
Definition submits (ev : Event) : bool :=
  match ev with
  | Send _ _ _ _ | KeyPress _ _ _ _ _ => true
  | _ => false
  end.

(** Runs in which the user waits for the answer before sending again. *)
Inductive reachable_serial : Config -> Prop :=
  | serial_init : reachable_serial initialConfig
  | serial_step c ev :
      reachable_serial c -> enabled c ev ->
      (submits ev = true -> pending c = []) ->
      reachable_serial (applyEvent ev c).

(** The text a settled request leaves in the placeholder. *)
Definition settledText (o : FetchOutcome) : jsstring :=
  match o with
  | FetchResolves _ (TextResolves fullText) => fullText
  | _ => fallbackText
  end.

(** Whether the request or the body read threw. *)
Definition throws (o : FetchOutcome) : bool :=
  match o with
  | FetchResolves _ (TextResolves _) => false
  | _ => true
  end.

(** ** TypewriterText *)

(** The component's state: the [displayed] string, and the live interval
    timer, if any, with the variables its callback closes over ([idx] and
    the [fullText] of the render that started it). *)
Record Typewriter : Type := mkTypewriter {
  displayed : jsstring;
  interval : option (nat * jsstring)
}.

(** [useState("")], before any effect has run. *)
Definition mountTypewriter : Typewriter :=
  {| displayed := []; interval := None |}.

(** The effect, run after mount and after every render in which [fullText]
    differs from the previous one. The cleanup of the previous run
    ([clearInterval]) comes first. Returns the arguments of the
    [setDisplayed] calls made. *)
Definition runEffect (fullText : jsstring) (tw : Typewriter)
    : Typewriter * list jsstring :=
  let idx := 0 in
  if negb (truthy fullText)
  then ({| displayed := []; interval := None |}, [[]])
  else ({| displayed := []; interval := Some (idx, fullText) |}, [[]]).

(** One period of the timer. A cleared interval never fires. *)
Definition tick (tw : Typewriter) : Typewriter * list jsstring :=
  match interval tw with
  | None => (tw, [])
  | Some (idx, fullText) =>
      let idx := idx + 1 in
      let shown := slice0 fullText idx in
      ({| displayed := shown;
          interval := if length fullText <=? idx then None
                      else Some (idx, fullText) |},
       [shown])
  end.

(** [n] periods of the timer, collecting the [setDisplayed] calls. *)
Fixpoint ticks (n : nat) (tw : Typewriter) : Typewriter * list jsstring :=
  match n with
  | 0 => (tw, [])
  | S n' =>
      let '(tw1, e1) := tick tw in
      let '(tw2, e2) := ticks n' tw1 in
      (tw2, e1 ++ e2)
  end.

(** The effect for [fullText] followed by [n] timer periods. *)
Definition reveal (fullText : jsstring) (n : nat) (tw : Typewriter)
    : Typewriter * list jsstring :=
  let '(tw1, e1) := runEffect fullText tw in
  let '(tw2, e2) := ticks n tw1 in
  (tw2, e1 ++ e2).

(** The prefixes of [s] of lengths [0 .. n]. *)
Definition prefixes (s : jsstring) (n : nat) : list jsstring :=
  List.map (slice0 s) (seq 0 (S n)).

(** The [fullText] prop of an assistant bubble goes from [prev] to [next]
    between two renders: the effect runs again only if its dependency
    changed. *)
Definition rerender (prev next : jsstring) (tw : Typewriter)
    : Typewriter * list jsstring :=
  if decide (prev = next) then (tw, []) else runEffect next tw.

(** ** The landing placeholder animation *)

Definition fullPlaceholder : jsstring := js "How can we help you today?".

(** [placeholderText] and [placeholderIndex], with the timers of the effect:
    the 150ms timeout, if pending, with the [placeholderIndex] its callback
    closes over, and the number of pending 3000ms timeouts. *)
Record Landing : Type := mkLanding {
  placeholderText : jsstring;
  placeholderIndex : nat;
  timer : option nat;
  pauses : nat
}.

(** The effect with dependencies [placeholderIndex, showChat], preceded by
    the cleanup of its previous run ([clearTimeout(timer)]). *)
Definition placeholderEffect (showChat : bool) (l : Landing) : Landing :=
  {| placeholderText := placeholderText l;
     placeholderIndex := placeholderIndex l;
     timer := if negb showChat then Some (placeholderIndex l) else None;
     pauses := pauses l |}.

(** After a render: the effect runs again if a dependency changed. *)
Definition commitLanding (prevIndex : nat) (prevShow show : bool)
    (l : Landing) : Landing :=
  if decide (prevIndex = placeholderIndex l /\ prevShow = show)
  then l else placeholderEffect show l.

(** The 150ms timeout fires. The function returned inside the callback is
    discarded by [setTimeout], so nothing ever clears a pending pause. *)
Definition timerFires (show : bool) (l : Landing) : Landing :=
  match timer l with
  | None => l
  | Some idx =>
      if idx <? length fullPlaceholder
      then
        commitLanding (placeholderIndex l) show show
          {| placeholderText := slice0 fullPlaceholder (idx + 1);
             placeholderIndex := placeholderIndex l + 1;
             timer := None;
             pauses := pauses l |}
      else
        {| placeholderText := placeholderText l;
           placeholderIndex := placeholderIndex l;
           timer := None;
           pauses := pauses l + 1 |}
  end.

(** A 3000ms timeout fires. *)
Definition pauseFires (show : bool) (l : Landing) : Landing :=
  match pauses l with
  | 0 => l
  | S n =>
      commitLanding (placeholderIndex l) show show
        {| placeholderText := [];
           placeholderIndex := 0;
           timer := timer l;
           pauses := n |}
  end.

(** The [placeholder] attribute of the input. *)
Definition inputPlaceholder (show : bool) (l : Landing) : jsstring :=
  if negb show
  then placeholderText l ++ (if truthy (placeholderText l) then js "|" else [])
  else js "Type your message...".

(** The whole page: the conversation and the landing animation. *)
Record Page : Type := mkPage {
  config : Config;
  landing : Landing
}.

(** After mount, the effect has run once. *)
Definition initialPage : Page :=
  {| config := initialConfig;
     landing :=
       placeholderEffect (showChat initialState)
         {| placeholderText := []; placeholderIndex := 0;
            timer := None; pauses := 0 |} |}.

Inductive PageEvent : Type :=
  | Chat (ev : Event)
  | TimerFires
  | PauseFires.

Definition applyPageEvent (ev : PageEvent) (p : Page) : Page :=
  match ev with
  | Chat ev =>
      let c := applyEvent ev (config p) in
      {| config := c;
         landing :=
           commitLanding (placeholderIndex (landing p))
             (showChat (ui (config p))) (showChat (ui c)) (landing p) |}
  | TimerFires =>
      {| config := config p;
         landing := timerFires (showChat (ui (config p))) (landing p) |}
  | PauseFires =>
      {| config := config p;
         landing := pauseFires (showChat (ui (config p))) (landing p) |}
  end.

Definition pageEnabled (p : Page) (ev : PageEvent) : Prop :=
  match ev with
  | Chat ev => enabled (config p) ev
  | TimerFires | PauseFires => True
  end.

Inductive pageReachable : Page -> Prop :=
  | page_init : pageReachable initialPage
  | page_step p ev :
      pageReachable p -> pageEnabled p ev ->
      pageReachable (applyPageEvent ev p).

Definition runPage (evs : list PageEvent) (p : Page) : Page :=
  fold_left (fun p ev => applyPageEvent ev p) evs p.

(** ** Vocabulary of the statements *)

(** The error, if any, that reaches the [catch] block. *)
Definition caught (o : FetchOutcome) : list Effect :=
  match o with
  | FetchRejects err => [ConsoleError err]
  | FetchResolves _ (TextRejects err) => [ConsoleError err]
  | FetchResolves _ (TextResolves _) => []
  end.

(** A suspended invocation still has its empty assistant placeholder in the
    list; ids are pairwise distinct. *)
Definition holdsPlaceholder (c : Config) (pid : jsstring) : Prop :=
  exists i m,
    messages (ui c) !! i = Some m /\ id m = pid /\
    isUser m = false /\ text m = [].

Definition wellFormed (c : Config) : Prop :=
  NoDup (ids (messages (ui c))) /\
  NoDup (List.map placeholderId (pending c)) /\
  (forall pid, pid ∈ List.map placeholderId (pending c) ->
               holdsPlaceholder c pid).

#[global] Instance fresh_dec (c : Config) (uuid1 uuid2 : jsstring) :
  Decision (fresh c uuid1 uuid2).
Proof. unfold fresh. apply _. Defined.

#[global] Instance enabled_dec (c : Config) (ev : Event) :
  Decision (enabled c ev).
Proof. destruct ev; simpl; apply _. Defined.

(** Every event of a run is enabled when its turn comes. *)
Fixpoint runEnabled (evs : list Event) (c : Config) : Prop :=
  match evs with
  | [] => True
  | ev :: evs' => enabled c ev /\ runEnabled evs' (applyEvent ev c)
  end.

#[global] Instance runEnabled_dec (evs : list Event) (c : Config) :
  Decision (runEnabled evs c).
Proof. revert c. induction evs as [|ev evs IH]; intros c; simpl; apply _. Defined.

(** Sample runs: one request in flight, and two. *)
Definition oneInFlight : list Event :=
  [ Input (js "hello"); Send (js "u1") 1 (js "p1") 2 ].

Definition twoInFlight : list Event :=
  [ Input (js "a"); Send (js "ua") 1 (js "pa") 2;
    Input (js "b"); Send (js "ub") 3 (js "pb") 4 ].

(** The requests among the effects performed. *)
Definition isFetch (e : Effect) : bool :=
  match e with
  | Fetch _ => true
  | ConsoleError _ => false
  end.

Definition requestsSent (c : Config) : nat :=
  length (List.filter isFetch (effects c)).

(** What holds of the landing animation while the chat is shown or hidden
    ([show]): the text is the prefix counted by the index; a pending 150ms
    timeout closes over the current index and exists only while the chat is
    hidden; at most one timeout of either kind is pending, and while the
    chat is hidden exactly one is. *)
Definition landingInv (show : bool) (l : Landing) : Prop :=
  placeholderText l = slice0 fullPlaceholder (placeholderIndex l) /\
  placeholderIndex l <= length fullPlaceholder /\
  pauses l <= 1 /\
  (forall k, timer l = Some k ->
             k = placeholderIndex l /\ show = false /\ pauses l = 0) /\
  (pauses l = 1 -> placeholderIndex l = length fullPlaceholder) /\
  (show = false -> timer l = None -> pauses l = 1).

#[global] Instance pageEnabled_dec (p : Page) (ev : PageEvent) :
  Decision (pageEnabled p ev).
Proof. destruct ev; simpl; apply _. Defined.

Fixpoint pageRunEnabled (evs : list PageEvent) (p : Page) : Prop :=
  match evs with
  | [] => True
  | ev :: evs' => pageEnabled p ev /\ pageRunEnabled evs' (applyPageEvent ev p)
  end.

#[global] Instance pageRunEnabled_dec (evs : list PageEvent) (p : Page) :
  Decision (pageRunEnabled evs p).
Proof. revert p. induction evs as [|ev evs IH]; intros p; simpl; apply _. Defined.

(** * Properties *)

(** ** Strings *)

Lemma truthy_nonempty (s : jsstring) : s <> [] -> truthy s = true.
Proof. destruct s; [congruence | reflexivity]. Qed.

Lemma truthy_empty (s : jsstring) : s = [] -> truthy s = false.
Proof. intros ->. reflexivity. Qed.

Lemma length_slice0 (s : jsstring) (n : nat) :
  n <= length s -> length (slice0 s n) = n.
Proof. intros H. unfold slice0. rewrite length_take. lia. Qed.

Lemma slice0_all (s : jsstring) (n : nat) : length s <= n -> slice0 s n = s.
Proof. intros H. unfold slice0. by apply take_ge. Qed.

(** ** In-place replacement *)

Section ReplaceText.
Variables pid t : jsstring.

Lemma replaceText_length (l : list Message) :
  length (replaceText pid t l) = length l.
Proof. unfold replaceText. apply length_map. Qed.

Lemma replaceText_ids (l : list Message) :
  ids (replaceText pid t l) = ids l.
Proof.
  unfold ids, replaceText. induction l as [|m l IH]; simpl; [reflexivity|].
  rewrite IH. by destruct (decide (id m = pid)).
Qed.

Lemma replaceText_app (l1 l2 : list Message) :
  replaceText pid t (l1 ++ l2) = replaceText pid t l1 ++ replaceText pid t l2.
Proof. unfold replaceText. apply List.map_app. Qed.

Lemma replaceText_lookup (l : list Message) (i : nat) :
  replaceText pid t l !! i =
  (fun msg => if decide (id msg = pid) then withText msg t else msg)
    <$> (l !! i).
Proof.
  revert i. induction l as [|m l IH]; intros [|i]; simpl; try reflexivity.
  apply IH.
Qed.

Lemma replaceText_absent (l : list Message) :
  pid ∉ ids l -> replaceText pid t l = l.
Proof.
  induction l as [|m l IH]; simpl; [reflexivity|].
  intros Hn. apply not_elem_of_cons in Hn as [Hm Hl].
  destruct (decide (id m = pid)) as [E|_]; [congruence|].
  f_equal. by apply IH.
Qed.

(** With distinct ids, the map touches exactly one slot. *)
Lemma replaceText_insert (l : list Message) (i : nat) (m : Message) :
  NoDup (ids l) -> l !! i = Some m -> id m = pid ->
  replaceText pid t l = <[i := withText m t]> l.
Proof.
  revert i. induction l as [|x l IH]; intros i Hnd Hi Hid; [done|].
  simpl in Hnd. apply NoDup_cons in Hnd as [Hx Hnd].
  destruct i as [|i]; simpl in *.
  - injection Hi as ->. destruct (decide (id m = pid)); [|congruence].
    f_equal. apply replaceText_absent. congruence.
  - assert (Hin : id m ∈ ids l).
    { apply list_elem_of_lookup. exists i. unfold ids.
      change (List.map id l) with (id <$> l).
      by rewrite list_lookup_fmap, Hi. }
    destruct (decide (id x = pid)) as [E|_]; [congruence|].
    f_equal. by apply IH.
Qed.
End ReplaceText.

Lemma withText_fields (m : Message) (t : jsstring) :
  id (withText m t) = id m /\ isUser (withText m t) = isUser m /\
  timestamp (withText m t) = timestamp m /\ text (withText m t) = t.
Proof. by destruct m. Qed.

Lemma lookup_unique_id (l : list Message) (i j : nat) (m m' : Message) :
  NoDup (ids l) -> l !! i = Some m -> l !! j = Some m' -> id m = id m' ->
  i = j.
Proof.
  intros Hnd Hi Hj E. unfold ids in Hnd.
  change (List.map id l) with (id <$> l) in Hnd.
  eapply NoDup_lookup; [exact Hnd| |].
  - by rewrite list_lookup_fmap, Hi.
  - rewrite list_lookup_fmap, Hj. simpl. by rewrite E.
Qed.

(** ** The continuation in closed form *)

Lemma resume_eq (pid : jsstring) (o : FetchOutcome) (s : State) :
  handleSendMessage_resume pid o s =
  (Normal,
   setIsTyping false (setMessages (replaceText pid (settledText o)) s),
   caught o).
Proof. destruct o as [err|status [err|fullText]]; reflexivity. Qed.

Lemma applyEvent_Settle (pid : jsstring) (o : FetchOutcome) (c : Config) :
  applyEvent (Settle pid o) c =
  {| ui := setIsTyping false
             (setMessages (replaceText pid (settledText o)) (ui c));
     pending := removePending pid (pending c);
     effects := effects c ++ caught o |}.
Proof. unfold applyEvent. by rewrite resume_eq. Qed.

Lemma start_blank u1 t1 u2 t2 (s : State) :
  trim (inputValue s) = [] ->
  handleSendMessage_start u1 t1 u2 t2 s = (s, None, []).
Proof. intros H. unfold handleSendMessage_start. by rewrite H. Qed.

Lemma start_accepted u1 t1 u2 t2 (s : State) :
  trim (inputValue s) <> [] ->
  handleSendMessage_start u1 t1 u2 t2 s =
  ({| messages :=
        messages s ++
        [ {| id := u1; text := inputValue s; isUser := true;
             timestamp := t1 |};
          {| id := u2; text := []; isUser := false; timestamp := t2 |} ];
      inputValue := []; isTyping := true; showChat := true;
      logoVisible := false |},
   Some {| placeholderId := u2; requestMessage := inputValue s |},
   [Fetch (inputValue s)]).
Proof.
  intros H. unfold handleSendMessage_start.
  rewrite (truthy_nonempty _ H). simpl.
  unfold setMessages; simpl. by rewrite <- app_assoc.
Qed.

Lemma invoke_nothing (c : Config) : invoke (ui c, None, []) c = c.
Proof. destruct c. unfold invoke; simpl. by rewrite !app_nil_r. Qed.

Lemma applyEvent_KeyPress key u1 t1 u2 t2 (c : Config) :
  applyEvent (KeyPress key u1 t1 u2 t2) c =
  if decide (key = js "Enter") then applyEvent (Send u1 t1 u2 t2) c else c.
Proof.
  unfold applyEvent, handleKeyPress.
  destruct (decide (key = js "Enter")); [reflexivity | apply invoke_nothing].
Qed.

Lemma applyEvent_Send_blank u1 t1 u2 t2 (c : Config) :
  trim (inputValue (ui c)) = [] -> applyEvent (Send u1 t1 u2 t2) c = c.
Proof.
  intros H. unfold applyEvent. rewrite (start_blank _ _ _ _ _ H).
  apply invoke_nothing.
Qed.

Lemma applyEvent_Send_accepted u1 t1 u2 t2 (c : Config) :
  trim (inputValue (ui c)) <> [] ->
  applyEvent (Send u1 t1 u2 t2) c =
  {| ui :=
       {| messages :=
            messages (ui c) ++
            [ {| id := u1; text := inputValue (ui c); isUser := true;
                 timestamp := t1 |};
              {| id := u2; text := []; isUser := false; timestamp := t2 |} ];
          inputValue := []; isTyping := true; showChat := true;
          logoVisible := false |};
     pending :=
       pending c ++
       [ {| placeholderId := u2; requestMessage := inputValue (ui c) |} ];
     effects := effects c ++ [Fetch (inputValue (ui c))] |}.
Proof.
  intros H. unfold applyEvent. by rewrite (start_accepted _ _ _ _ _ H).
Qed.

(** ** Invariants of reachable configurations *)

Lemma removePending_elem (pid : jsstring) (ps : list Pending) (p : Pending) :
  p ∈ removePending pid ps <-> placeholderId p <> pid /\ p ∈ ps.
Proof.
  unfold removePending. induction ps as [|q ps IH]; simpl.
  - split; [intros H; inversion H | intros [_ H]; inversion H].
  - destruct (bool_decide_reflect (placeholderId q = pid)) as [E|E]; simpl.
    + rewrite IH, elem_of_cons. split; [tauto|].
      intros [Hn [->|H]]; [congruence | tauto].
    + rewrite !elem_of_cons, IH. split.
      * intros [->|[? ?]]; tauto.
      * intros [Hn [->|H]]; tauto.
Qed.

Lemma removePending_ids_elem (pid x : jsstring) (ps : list Pending) :
  x ∈ List.map placeholderId (removePending pid ps) <->
  x <> pid /\ x ∈ List.map placeholderId ps.
Proof.
  change (List.map placeholderId) with (fmap (M:=list) placeholderId).
  rewrite !list_elem_of_fmap. split.
  - intros [p [-> Hp]]. apply removePending_elem in Hp as [? ?].
    split; [done | by exists p].
  - intros [Hn [p [-> Hp]]]. exists p. split; [done|].
    by apply removePending_elem.
Qed.

Lemma removePending_NoDup (pid : jsstring) (ps : list Pending) :
  NoDup (List.map placeholderId ps) ->
  NoDup (List.map placeholderId (removePending pid ps)).
Proof.
  unfold removePending. induction ps as [|q ps IH]; simpl; [done|].
  rewrite NoDup_cons. intros [Hq Hnd].
  destruct (bool_decide (placeholderId q = pid)); simpl; [by apply IH|].
  apply NoDup_cons. split; [|by apply IH].
  intros Hin. apply Hq.
  by apply (removePending_ids_elem pid) in Hin as [_ ?].
Qed.

Lemma holdsPlaceholder_id (c : Config) (pid : jsstring) :
  holdsPlaceholder c pid -> pid ∈ ids (messages (ui c)).
Proof.
  intros (i & m & Hi & Hid & _). apply list_elem_of_lookup. exists i.
  unfold ids. change (List.map id) with (fmap (M:=list) id).
  by rewrite list_lookup_fmap, Hi, <- Hid.
Qed.

Lemma wellFormed_init : wellFormed initialConfig.
Proof.
  repeat split; simpl; try constructor.
  intros pid H. inversion H.
Qed.

Lemma wellFormed_same_messages (c c' : Config) :
  messages (ui c') = messages (ui c) -> pending c' = pending c ->
  wellFormed c -> wellFormed c'.
Proof.
  intros Hm Hp (H1 & H2 & H3). unfold wellFormed, holdsPlaceholder.
  rewrite Hm, Hp. auto.
Qed.

Lemma wellFormed_Send u1 t1 u2 t2 (c : Config) :
  wellFormed c -> fresh c u1 u2 -> wellFormed (applyEvent (Send u1 t1 u2 t2) c).
Proof.
  intros Hwf (Hne & Hf1 & Hf2).
  destruct (decide (trim (inputValue (ui c)) = [])) as [Hb|Hb].
  { by rewrite applyEvent_Send_blank. }
  rewrite applyEvent_Send_accepted by done.
  destruct Hwf as (H1 & H2 & H3). unfold wellFormed, holdsPlaceholder; simpl.
  split; [|split].
  - unfold ids in *. rewrite List.map_app. simpl.
    apply NoDup_app. split; [done|]. split.
    + intros x Hx Hin. apply elem_of_cons in Hin as [->|Hin]; [done|].
      apply list_elem_of_singleton in Hin as ->. done.
    + apply NoDup_cons. split; [|apply NoDup_singleton].
      by intros ->%list_elem_of_singleton.
  - rewrite List.map_app. simpl. apply NoDup_app. split; [done|]. split.
    + intros x Hx ->%list_elem_of_singleton.
      apply Hf2. by apply holdsPlaceholder_id, H3.
    + apply NoDup_singleton.
  - intros pid. rewrite List.map_app. simpl. rewrite elem_of_app.
    intros [Hin | ->%list_elem_of_singleton].
    + destruct (H3 pid Hin) as (i & m & Hi & Hrest).
      exists i, m. split; [|done]. by apply lookup_app_l_Some.
    + exists (S (length (messages (ui c)))). eexists. split.
      * rewrite lookup_app_r by lia.
        replace (S (length (messages (ui c))) - length (messages (ui c)))
          with 1 by lia. reflexivity.
      * done.
Qed.

Lemma wellFormed_Settle pid o (c : Config) :
  wellFormed c -> wellFormed (applyEvent (Settle pid o) c).
Proof.
  intros (H1 & H2 & H3). rewrite applyEvent_Settle.
  unfold wellFormed, holdsPlaceholder; simpl. split; [|split].
  - by rewrite replaceText_ids.
  - by apply removePending_NoDup.
  - intros q Hq. apply removePending_ids_elem in Hq as [Hne Hq].
    destruct (H3 q Hq) as (i & m & Hi & Hid & Hu & Ht).
    exists i, m. split; [|done].
    rewrite replaceText_lookup, Hi. simpl.
    destruct (decide (id m = pid)); [congruence | done].
Qed.

Lemma wellFormed_step (c : Config) (ev : Event) :
  wellFormed c -> enabled c ev -> wellFormed (applyEvent ev c).
Proof.
  intros Hwf Hen. destruct ev as [v| |u1 t1 u2 t2|key u1 t1 u2 t2|pid o].
  - by apply (wellFormed_same_messages c).
  - apply (wellFormed_same_messages c); [|done|done].
    simpl. unfold handleInputFocus. by destruct (showChat (ui c)).
  - by apply wellFormed_Send.
  - rewrite applyEvent_KeyPress. destruct (decide (key = js "Enter")); [|done].
    by apply wellFormed_Send.
  - by apply wellFormed_Settle.
Qed.

Lemma reachable_wellFormed (c : Config) : reachable c -> wellFormed c.
Proof.
  induction 1 as [|c ev _ IH Hen]; [apply wellFormed_init|].
  by apply wellFormed_step.
Qed.

(** The slot of a suspended invocation, and what settling does to the list. *)
Lemma settle_slot (c : Config) (pid : jsstring) (o : FetchOutcome) :
  wellFormed c -> pid ∈ List.map placeholderId (pending c) ->
  exists i m,
    messages (ui c) !! i = Some m /\ id m = pid /\
    isUser m = false /\ text m = [] /\
    messages (ui (applyEvent (Settle pid o) c)) =
      <[i := withText m (settledText o)]> (messages (ui c)).
Proof.
  intros (H1 & H2 & H3) Hin.
  destruct (H3 pid Hin) as (i & m & Hi & Hid & Hu & Ht).
  exists i, m. repeat (split; [done|]).
  rewrite applyEvent_Settle. simpl. by apply replaceText_insert.
Qed.

(** The same, with the message the continuation writes spelled out. *)
Lemma settle_writes (c : Config) (pid : jsstring) (o : FetchOutcome) :
  wellFormed c -> pid ∈ List.map placeholderId (pending c) ->
  exists i m,
    messages (ui c) !! i = Some m /\ id m = pid /\
    isUser m = false /\ text m = [] /\
    messages (ui (applyEvent (Settle pid o) c)) =
      <[i := {| id := pid; text := settledText o; isUser := false;
                timestamp := timestamp m |}]> (messages (ui c)) /\
    messages (ui (applyEvent (Settle pid o) c)) !! i =
      Some {| id := pid; text := settledText o; isUser := false;
              timestamp := timestamp m |}.
Proof.
  intros Hwf Hin.
  destruct (settle_slot c pid o Hwf Hin) as (i & m & Hi & Hid & Hu & Ht & Hm).
  exists i, m. repeat (split; [done|]).
  assert (Hw : withText m (settledText o) =
               {| id := pid; text := settledText o; isUser := false;
                  timestamp := timestamp m |}).
  { unfold withText. by rewrite Hid, Hu. }
  rewrite Hm, Hw. split; [done|].
  apply list_lookup_insert_eq. by apply lookup_lt_Some in Hi.
Qed.

(** ** Blank input *)

Lemma trimStart_nil_iff (s : jsstring) :
  trimStart s = [] <-> forallb isWhiteSpace s = true.
Proof.
  induction s as [|c s IH]; simpl; [done|].
  destruct (isWhiteSpace c); simpl; [exact IH | split; discriminate].
Qed.

Lemma trimStart_head (s : jsstring) (c : N) (r : jsstring) :
  trimStart s = c :: r -> isWhiteSpace c = false.
Proof.
  induction s as [|x s IH]; simpl; [discriminate|].
  destruct (isWhiteSpace x) eqn:E; [exact IH|].
  intros [= <- _]. exact E.
Qed.

Lemma forallb_rev (s : jsstring) :
  forallb isWhiteSpace (rev s) = forallb isWhiteSpace s.
Proof.
  induction s as [|c s IH]; simpl; [done|].
  rewrite forallb_app, IH. simpl. rewrite andb_true_r. apply andb_comm.
Qed.

(** [trim] leaves nothing exactly when every code unit is white space. *)
Lemma trim_nil_iff (s : jsstring) :
  trim s = [] <-> forallb isWhiteSpace s = true.
Proof.
  unfold trim, trimEnd. split.
  - intros H. apply (f_equal (@rev N)) in H. rewrite rev_involutive in H.
    simpl in H. apply trimStart_nil_iff in H. rewrite forallb_rev in H.
    destruct (trimStart s) as [|c r] eqn:E; [by apply trimStart_nil_iff|].
    apply trimStart_head in E. simpl in H. rewrite E in H. discriminate.
  - intros H. apply trimStart_nil_iff in H. by rewrite H.
Qed.

(** ** The claims about [handleSendMessage] *)

(** C1. For an input whose trimmed form is non-empty, the handler appends
    exactly two messages, in this order: a user message carrying the input
    verbatim (not trimmed), then an assistant placeholder with empty text
    whose id is the one just generated; it sets [isTyping] and clears the
    input field, and issues one request carrying the input. *)
Theorem submit_appends_two u1 t1 u2 t2 (s : State) :
  trim (inputValue s) <> [] ->
  exists s',
    handleSendMessage_start u1 t1 u2 t2 s =
      (s', Some {| placeholderId := u2; requestMessage := inputValue s |},
       [Fetch (inputValue s)]) /\
    messages s' =
      messages s ++
      [ {| id := u1; text := inputValue s; isUser := true; timestamp := t1 |};
        {| id := u2; text := []; isUser := false; timestamp := t2 |} ] /\
    isTyping s' = true /\
    inputValue s' = [].
Proof.
  intros H. eexists. split; [by apply start_accepted|]. by simpl.
Qed.

Lemma submit_appends_two_witness :
  exists s',
    handleSendMessage_start (js "u1") 10 (js "u2") 11
      (setInputValue (js " hi ") initialState) =
      (s', Some {| placeholderId := js "u2"; requestMessage := js " hi " |},
       [Fetch (js " hi ")]) /\
    messages s' =
      [ {| id := js "u1"; text := js " hi "; isUser := true;
           timestamp := 10 |};
        {| id := js "u2"; text := []; isUser := false; timestamp := 11 |} ] /\
    isTyping s' = true /\
    inputValue s' = [].
Proof.
  apply (submit_appends_two (js "u1") 10 (js "u2") 11
           (setInputValue (js " hi ") initialState)).
  vm_compute. discriminate.
Defined.

(** C8. For an input that is empty or consists of white space only, the
    handler returns at once: no message is appended, no request is issued,
    and no part of the state changes. *)
Theorem blank_input_ignored u1 t1 u2 t2 (c : Config) :
  forallb isWhiteSpace (inputValue (ui c)) = true ->
  trim (inputValue (ui c)) = [] /\
  handleSendMessage_start u1 t1 u2 t2 (ui c) = (ui c, None, []) /\
  applyEvent (Send u1 t1 u2 t2) c = c.
Proof.
  intros H. apply trim_nil_iff in H. split; [done|]. split.
  - by apply start_blank.
  - by apply applyEvent_Send_blank.
Qed.

Lemma blank_input_ignored_witness :
  let c := applyEvent (Input (js "   ")) initialConfig in
  trim (inputValue (ui c)) = [] /\
  handleSendMessage_start (js "u1") 10 (js "u2") 11 (ui c) = (ui c, None, []) /\
  applyEvent (Send (js "u1") 10 (js "u2") 11) c = c.
Proof.
  apply (blank_input_ignored (js "u1") 10 (js "u2") 11
           (applyEvent (Input (js "   ")) initialConfig)).
  vm_compute. reflexivity.
Defined.

(** C2. When the request of a suspended invocation succeeds with a body [r],
    the continuation puts [r] in the text of the placeholder that carries the
    reserved id, in the slot where the placeholder already was, and clears
    [isTyping]: the message in that slot is the placeholder with text [r],
    and the list is otherwise the same. *)
Theorem success_fills_placeholder (c : Config) (pid : jsstring)
    (status : N) (r : jsstring) :
  reachable c -> pid ∈ List.map placeholderId (pending c) ->
  let c' := applyEvent (Settle pid (FetchResolves status (TextResolves r))) c in
  exists i m,
    messages (ui c) !! i = Some m /\ id m = pid /\
    isUser m = false /\ text m = [] /\
    messages (ui c') =
      <[i := {| id := pid; text := r; isUser := false;
                timestamp := timestamp m |}]> (messages (ui c)) /\
    messages (ui c') !! i =
      Some {| id := pid; text := r; isUser := false;
              timestamp := timestamp m |} /\
    length (messages (ui c')) = length (messages (ui c)) /\
    isTyping (ui c') = false.
Proof.
  intros Hr Hin c'. apply reachable_wellFormed in Hr.
  destruct (settle_writes c pid (FetchResolves status (TextResolves r)) Hr Hin)
    as (i & m & Hi & Hid & Hu & Ht & Hm & Hl).
  exists i, m. repeat (split; [done|]). split.
  - unfold c'. rewrite Hm. apply length_insert.
  - unfold c'. by rewrite applyEvent_Settle.
Qed.

Lemma reachable_run (evs : list Event) (c : Config) :
  reachable c -> runEnabled evs c -> reachable (run evs c).
Proof.
  revert c. induction evs as [|ev evs IH]; intros c Hr He; [done|].
  destruct He as [He1 He2]. simpl. apply IH; [|done].
  by apply reachable_step.
Qed.

Ltac by_computation := apply (bool_decide_unpack _); vm_compute; exact I.

Lemma oneInFlight_reachable : reachable (run oneInFlight initialConfig).
Proof. apply reachable_run; [apply reachable_init | by_computation]. Qed.

Lemma twoInFlight_reachable : reachable (run twoInFlight initialConfig).
Proof. apply reachable_run; [apply reachable_init | by_computation]. Qed.

Lemma success_fills_placeholder_witness :
  let c := run oneInFlight initialConfig in
  let c' :=
    applyEvent
      (Settle (js "p1") (FetchResolves 200 (TextResolves (js "hi there")))) c in
  exists i m,
    messages (ui c) !! i = Some m /\ id m = js "p1" /\
    isUser m = false /\ text m = [] /\
    messages (ui c') =
      <[i := {| id := js "p1"; text := js "hi there"; isUser := false;
                timestamp := timestamp m |}]> (messages (ui c)) /\
    messages (ui c') !! i =
      Some {| id := js "p1"; text := js "hi there"; isUser := false;
              timestamp := timestamp m |} /\
    length (messages (ui c')) = length (messages (ui c)) /\
    isTyping (ui c') = false.
Proof.
  apply (success_fills_placeholder (run oneInFlight initialConfig) (js "p1")
           200 (js "hi there")).
  - exact oneInFlight_reachable.
  - by_computation.
Defined.

(** C3. Whatever the outcome of the request, and however many invocations
    are suspended, the continuation changes the text field of exactly one
    message, the one whose id was reserved by its invocation: the list keeps
    its length and its order, no other slot changes, no other message has
    that id, and the message in the slot keeps its id, origin and
    timestamp. *)
Theorem settle_changes_one_text (c : Config) (pid : jsstring)
    (o : FetchOutcome) :
  reachable c -> pid ∈ List.map placeholderId (pending c) ->
  let ms := messages (ui c) in
  let ms' := messages (ui (applyEvent (Settle pid o) c)) in
  exists i m,
    ms !! i = Some m /\ id m = pid /\
    (forall j m0, ms !! j = Some m0 -> id m0 = pid -> j = i) /\
    ms' = <[i := withText m (settledText o)]> ms /\
    length ms' = length ms /\
    (forall j, j <> i -> ms' !! j = ms !! j) /\
    ms' !! i = Some (withText m (settledText o)) /\
    id (withText m (settledText o)) = id m /\
    isUser (withText m (settledText o)) = isUser m /\
    timestamp (withText m (settledText o)) = timestamp m /\
    ids ms' = ids ms.
Proof.
  intros Hr Hin ms ms'. apply reachable_wellFormed in Hr.
  destruct (settle_slot c pid o Hr Hin) as (i & m & Hi & Hid & _ & _ & Hm).
  destruct Hr as (Hnd & _ & _).
  exists i, m. split; [done|]. split; [done|]. split.
  { intros j m0 Hj Hid0. eapply lookup_unique_id; eauto. congruence. }
  split; [done|]. unfold ms'. rewrite Hm. split; [apply length_insert|].
  split. { intros j Hj. by apply list_lookup_insert_ne. }
  split. { apply list_lookup_insert_eq. by apply lookup_lt_Some in Hi. }
  repeat (split; [done|]).
  rewrite <- Hm, applyEvent_Settle. simpl. apply replaceText_ids.
Qed.

Lemma settle_changes_one_text_witness :
  let c := run twoInFlight initialConfig in
  let o := FetchResolves 200 (TextResolves (js "B")) in
  let ms := messages (ui c) in
  let ms' := messages (ui (applyEvent (Settle (js "pb") o) c)) in
  exists i m,
    ms !! i = Some m /\ id m = js "pb" /\
    (forall j m0, ms !! j = Some m0 -> id m0 = js "pb" -> j = i) /\
    ms' = <[i := withText m (settledText o)]> ms /\
    length ms' = length ms /\
    (forall j, j <> i -> ms' !! j = ms !! j) /\
    ms' !! i = Some (withText m (settledText o)) /\
    id (withText m (settledText o)) = id m /\
    isUser (withText m (settledText o)) = isUser m /\
    timestamp (withText m (settledText o)) = timestamp m /\
    ids ms' = ids ms.
Proof.
  apply (settle_changes_one_text (run twoInFlight initialConfig) (js "pb")
           (FetchResolves 200 (TextResolves (js "B")))).
  - exact twoInFlight_reachable.
  - by_computation.
Defined.

(** C4. When the request of a suspended invocation fails (the [fetch] call
    or the body read throws), the continuation puts the one fixed string
    "Oops! Something went wrong connecting to the server." in the text of
    the placeholder, clears [isTyping], completes normally (the error is not
    rethrown), performs no effect but one [console.error] (no second
    request), and the invocation is over: it is no longer suspended. *)
Theorem failure_is_terminal (c : Config) (pid : jsstring) (o : FetchOutcome) :
  reachable c -> pid ∈ List.map placeholderId (pending c) ->
  throws o = true ->
  let c' := applyEvent (Settle pid o) c in
  exists i m,
    messages (ui c) !! i = Some m /\ id m = pid /\
    isUser m = false /\ text m = [] /\
    messages (ui c') =
      <[i := {| id := pid;
                text :=
                  js "Oops! Something went wrong connecting to the server.";
                isUser := false; timestamp := timestamp m |}]>
        (messages (ui c)) /\
    messages (ui c') !! i =
      Some {| id := pid;
              text := js "Oops! Something went wrong connecting to the server.";
              isUser := false; timestamp := timestamp m |} /\
    isTyping (ui c') = false /\
    (exists err,
       handleSendMessage_resume pid o (ui c) =
         (Normal, ui c', [ConsoleError err]) /\
       effects c' = effects c ++ [ConsoleError err]) /\
    (pid ∉ List.map placeholderId (pending c')).
Proof.
  intros Hr Hin Hthrow c'. apply reachable_wellFormed in Hr.
  destruct (settle_writes c pid o Hr Hin)
    as (i & m & Hi & Hid & Hu & Ht & Hm & Hl).
  assert (Hs : settledText o =
               js "Oops! Something went wrong connecting to the server.").
  { destruct o as [e|st [e|r]]; try reflexivity. discriminate. }
  rewrite Hs in Hm, Hl. exists i, m. repeat (split; [done|]).
  split. { unfold c'. by rewrite applyEvent_Settle. }
  split.
  - unfold c'. rewrite applyEvent_Settle, resume_eq. simpl.
    destruct o as [e|st [e|r]]; try discriminate; by exists e.
  - unfold c'. rewrite applyEvent_Settle. simpl.
    rewrite removePending_ids_elem. tauto.
Qed.

Lemma failure_is_terminal_witness :
  let c := run oneInFlight initialConfig in
  let o := FetchRejects (js "TypeError: Failed to fetch") in
  let c' := applyEvent (Settle (js "p1") o) c in
  exists i m,
    messages (ui c) !! i = Some m /\ id m = js "p1" /\
    isUser m = false /\ text m = [] /\
    messages (ui c') =
      <[i := {| id := js "p1";
                text :=
                  js "Oops! Something went wrong connecting to the server.";
                isUser := false; timestamp := timestamp m |}]>
        (messages (ui c)) /\
    messages (ui c') !! i =
      Some {| id := js "p1";
              text := js "Oops! Something went wrong connecting to the server.";
              isUser := false; timestamp := timestamp m |} /\
    isTyping (ui c') = false /\
    (exists err,
       handleSendMessage_resume (js "p1") o (ui c) =
         (Normal, ui c', [ConsoleError err]) /\
       effects c' = effects c ++ [ConsoleError err]) /\
    (js "p1" ∉ List.map placeholderId (pending c')).
Proof.
  apply (failure_is_terminal (run oneInFlight initialConfig) (js "p1")
           (FetchRejects (js "TypeError: Failed to fetch"))).
  - exact oneInFlight_reachable.
  - by_computation.
  - reflexivity.
Defined.

(** C10. Once a response has arrived and its body has been read, the text
    of the placeholder is the body as it is, whatever the HTTP status; the
    fixed string is written exactly when the [catch] block runs, and the
    [catch] block runs exactly when the [fetch] call or the body read
    throws. *)
Theorem body_verbatim_any_status (c : Config) (pid : jsstring)
    (o : FetchOutcome) :
  reachable c -> pid ∈ List.map placeholderId (pending c) ->
  let c' := applyEvent (Settle pid o) c in
  exists i m,
    messages (ui c) !! i = Some m /\ id m = pid /\
    isUser m = false /\ text m = [] /\
    (forall status body,
       o = FetchResolves status (TextResolves body) ->
       messages (ui c') !! i =
         Some {| id := pid; text := body; isUser := false;
                 timestamp := timestamp m |} /\
       (handleSendMessage_resume pid o (ui c)).2 = []) /\
    ((exists err, (handleSendMessage_resume pid o (ui c)).2 = [ConsoleError err])
     <-> throws o = true) /\
    (throws o = true ->
       messages (ui c') !! i =
         Some {| id := pid;
                 text :=
                   js "Oops! Something went wrong connecting to the server.";
                 isUser := false; timestamp := timestamp m |}).
Proof.
  intros Hr Hin c'. apply reachable_wellFormed in Hr.
  destruct (settle_writes c pid o Hr Hin)
    as (i & m & Hi & Hid & Hu & Ht & _ & Hl).
  exists i, m. repeat (split; [done|]). rewrite resume_eq. simpl.
  split; [|split].
  - intros status body ->. by split.
  - destruct o as [e|st [e|r]]; simpl; split; try done; try by eexists.
    intros [err H]. discriminate.
  - intros Hthrow. unfold c'. rewrite Hl.
    destruct o as [e|st [e|r]]; try reflexivity. discriminate.
Qed.

Lemma body_verbatim_any_status_witness :
  let c := run oneInFlight initialConfig in
  let o := FetchResolves 500 (TextResolves (js "Internal Server Error")) in
  let c' := applyEvent (Settle (js "p1") o) c in
  exists i m,
    messages (ui c) !! i = Some m /\ id m = js "p1" /\
    isUser m = false /\ text m = [] /\
    (forall status body,
       o = FetchResolves status (TextResolves body) ->
       messages (ui c') !! i =
         Some {| id := js "p1"; text := body; isUser := false;
                 timestamp := timestamp m |} /\
       (handleSendMessage_resume (js "p1") o (ui c)).2 = []) /\
    ((exists err,
        (handleSendMessage_resume (js "p1") o (ui c)).2 = [ConsoleError err])
     <-> throws o = true) /\
    (throws o = true ->
       messages (ui c') !! i =
         Some {| id := js "p1";
                 text :=
                   js "Oops! Something went wrong connecting to the server.";
                 isUser := false; timestamp := timestamp m |}).
Proof.
  apply (body_verbatim_any_status (run oneInFlight initialConfig) (js "p1")
           (FetchResolves 500 (TextResolves (js "Internal Server Error")))).
  - exact oneInFlight_reachable.
  - by_computation.
Defined.

(** C6, as the code has it. Every failure in which the [fetch] call or the
    body read throws (a network error, or an exception while the body of a
    response of any status is read) leaves the same fixed string in the text
    of the placeholder. A response with a status outside 200..299 whose body
    is read is not a failure for the handler: the text of the placeholder is
    the body. *)
Theorem thrown_failures_collapse (c : Config) (pid : jsstring)
    (o : FetchOutcome) :
  reachable c -> pid ∈ List.map placeholderId (pending c) ->
  let c' := applyEvent (Settle pid o) c in
  exists i m,
    messages (ui c) !! i = Some m /\ id m = pid /\
    isUser m = false /\ text m = [] /\
    (forall err,
       o = FetchRejects err ->
       messages (ui c') !! i =
         Some {| id := pid;
                 text :=
                   js "Oops! Something went wrong connecting to the server.";
                 isUser := false; timestamp := timestamp m |}) /\
    (forall status err,
       o = FetchResolves status (TextRejects err) ->
       messages (ui c') !! i =
         Some {| id := pid;
                 text :=
                   js "Oops! Something went wrong connecting to the server.";
                 isUser := false; timestamp := timestamp m |}) /\
    (forall status body,
       ok_status status = false ->
       o = FetchResolves status (TextResolves body) ->
       messages (ui c') !! i =
         Some {| id := pid; text := body; isUser := false;
                 timestamp := timestamp m |}).
Proof.
  intros Hr Hin c'. apply reachable_wellFormed in Hr.
  destruct (settle_writes c pid o Hr Hin)
    as (i & m & Hi & Hid & Hu & Ht & _ & Hl).
  exists i, m. repeat (split; [done|]).
  repeat split; intros; subst o; exact Hl.
Qed.

Lemma thrown_failures_collapse_witness :
  let c := run oneInFlight initialConfig in
  let o := FetchResolves 502 (TextRejects (js "TypeError: body stream")) in
  let c' := applyEvent (Settle (js "p1") o) c in
  exists i m,
    messages (ui c) !! i = Some m /\ id m = js "p1" /\
    isUser m = false /\ text m = [] /\
    (forall err,
       o = FetchRejects err ->
       messages (ui c') !! i =
         Some {| id := js "p1";
                 text :=
                   js "Oops! Something went wrong connecting to the server.";
                 isUser := false; timestamp := timestamp m |}) /\
    (forall status err,
       o = FetchResolves status (TextRejects err) ->
       messages (ui c') !! i =
         Some {| id := js "p1";
                 text :=
                   js "Oops! Something went wrong connecting to the server.";
                 isUser := false; timestamp := timestamp m |}) /\
    (forall status body,
       ok_status status = false ->
       o = FetchResolves status (TextResolves body) ->
       messages (ui c') !! i =
         Some {| id := js "p1"; text := body; isUser := false;
                 timestamp := timestamp m |}).
Proof.
  apply (thrown_failures_collapse (run oneInFlight initialConfig) (js "p1")
           (FetchResolves 502 (TextRejects (js "TypeError: body stream")))).
  - exact oneInFlight_reachable.
  - by_computation.
Defined.

(** C6 as stated fails: a 500 response with a body leaves the body, not the
    fallback string, in the placeholder. *)
Lemma non2xx_body_is_shown :
  let c := run oneInFlight initialConfig in
  let o := FetchResolves 500 (TextResolves (js "Internal Server Error")) in
  let c' := applyEvent (Settle (js "p1") o) c in
  reachable c /\
  js "p1" ∈ List.map placeholderId (pending c) /\
  ok_status 500 = false /\
  text <$> messages (ui c') !! 1 = Some (js "Internal Server Error") /\
  text <$> messages (ui c') !! 1 <> Some fallbackText.
Proof.
  split; [exact oneInFlight_reachable|].
  split; [by_computation|].
  vm_compute. repeat split. discriminate.
Qed.

Lemma messages_Settle (pid : jsstring) (o : FetchOutcome) (c : Config) :
  messages (ui (applyEvent (Settle pid o) c)) =
  replaceText pid (settledText o) (messages (ui c)).
Proof. by rewrite applyEvent_Settle. Qed.

Lemma messages_Input (v : jsstring) (c : Config) :
  messages (ui (applyEvent (Input v) c)) = messages (ui c).
Proof. reflexivity. Qed.

Lemma messages_typed_and_sent (v : jsstring) u1 t1 u2 t2 (c : Config) :
  trim v <> [] ->
  messages (ui (applyEvent (Send u1 t1 u2 t2) (applyEvent (Input v) c))) =
  messages (ui c) ++
  [ {| id := u1; text := v; isUser := true; timestamp := t1 |};
    {| id := u2; text := []; isUser := false; timestamp := t2 |} ].
Proof. intros H. by rewrite applyEvent_Send_accepted. Qed.

(** C7. Two submissions [a] then [b], both in flight, the request of [b]
    settling first: the list ends with the user message [a], the answer to
    [a], the user message [b], the answer to [b], in this order, as it does
    when the requests settle in the order of submission. *)
Theorem positions_fixed_at_insertion (c : Config) (a b : jsstring)
    ua ta pa ta' ub tb pb tb' (oa ob : FetchOutcome) :
  trim a <> [] -> trim b <> [] ->
  let submit :=
    [ Input a; Send ua ta pa ta'; Input b; Send ub tb pb tb' ] in
  runEnabled (submit ++ [Settle pb ob; Settle pa oa]) c ->
  let final :=
    messages (ui c) ++
    [ {| id := ua; text := a; isUser := true; timestamp := ta |};
      {| id := pa; text := settledText oa; isUser := false;
         timestamp := ta' |};
      {| id := ub; text := b; isUser := true; timestamp := tb |};
      {| id := pb; text := settledText ob; isUser := false;
         timestamp := tb' |} ] in
  messages (ui (run (submit ++ [Settle pb ob; Settle pa oa]) c)) = final /\
  messages (ui (run (submit ++ [Settle pa oa; Settle pb ob]) c)) = final.
Proof.
  intros Ha Hb submit Hen final.
  destruct Hen as (_ & Hfa & _ & Hfb & _).
  unfold submit, run. cbn [fold_left app].
  rewrite !messages_Settle, !messages_typed_and_sent by done.
  unfold enabled, fresh in Hfa, Hfb.
  rewrite messages_Input in Hfa, Hfb.
  rewrite messages_typed_and_sent in Hfb by done.
  destruct Hfa as (Hn1 & Hua & Hpa). destruct Hfb as (Hn2 & Hub & Hpb).
  unfold ids in *. rewrite !List.map_app in Hub, Hpb. simpl in Hub, Hpb.
  rewrite !elem_of_app, !elem_of_cons in Hub, Hpb.
  rewrite <- !app_assoc. simpl.
  rewrite !replaceText_app.
  rewrite (replaceText_absent pb _ (messages (ui c))) by (unfold ids; tauto).
  rewrite (replaceText_absent pa _ (messages (ui c))) by (unfold ids; tauto).
  rewrite (replaceText_absent pb _ (messages (ui c))) by (unfold ids; tauto).
  unfold final. simpl.
  assert (Hd : ua <> pb /\ pa <> pb /\ ub <> pa /\ pb <> pa).
  { repeat split; intros E; subst; tauto. }
  destruct Hd as (D1 & D2 & D3 & D4).
  split; repeat (case_decide; simpl in *); try congruence; reflexivity.
Qed.

Lemma positions_fixed_at_insertion_witness :
  let oa := FetchResolves 200 (TextResolves (js "A")) in
  let ob := FetchResolves 200 (TextResolves (js "B")) in
  let final :=
    [ {| id := js "ua"; text := js "a"; isUser := true; timestamp := 1 |};
      {| id := js "pa"; text := js "A"; isUser := false; timestamp := 2 |};
      {| id := js "ub"; text := js "b"; isUser := true; timestamp := 3 |};
      {| id := js "pb"; text := js "B"; isUser := false; timestamp := 4 |} ] in
  messages
    (ui (run (twoInFlight ++ [Settle (js "pb") ob; Settle (js "pa") oa])
           initialConfig)) = final /\
  messages
    (ui (run (twoInFlight ++ [Settle (js "pa") oa; Settle (js "pb") ob])
           initialConfig)) = final.
Proof.
  apply (positions_fixed_at_insertion initialConfig (js "a") (js "b")
           (js "ua") 1 (js "pa") 2 (js "ub") 3 (js "pb") 4
           (FetchResolves 200 (TextResolves (js "A")))
           (FetchResolves 200 (TextResolves (js "B")))).
  - vm_compute. discriminate.
  - vm_compute. discriminate.
  - by_computation.
Defined.

(** ** The typing flag *)

(** C9 as stated fails: with two requests in flight, the completion of one
    clears [isTyping] while the other is still outstanding. *)
Lemma typing_flag_cleared_early :
  let c :=
    run (twoInFlight ++
         [Settle (js "pb") (FetchResolves 200 (TextResolves (js "B")))])
      initialConfig in
  reachable c /\
  List.map placeholderId (pending c) = [js "pa"] /\
  isTyping (ui c) = false.
Proof.
  split; [|split; reflexivity].
  apply reachable_run; [apply reachable_init | by_computation].
Qed.

Lemma isTyping_Settle (pid : jsstring) (o : FetchOutcome) (c : Config) :
  isTyping (ui (applyEvent (Settle pid o) c)) = false.
Proof. by rewrite applyEvent_Settle. Qed.

Lemma serial_invariant (c : Config) :
  reachable_serial c ->
  length (pending c) <= 1 /\ (isTyping (ui c) = true <-> pending c <> []).
Proof.
  induction 1 as [|c ev _ [IHl IHt] Hen Hser].
  { simpl. split; [lia|]. split; [discriminate | congruence]. }
  assert (Hsend : forall u1 t1 u2 t2,
            pending c = [] ->
            length (pending (applyEvent (Send u1 t1 u2 t2) c)) <= 1 /\
            (isTyping (ui (applyEvent (Send u1 t1 u2 t2) c)) = true <->
             pending (applyEvent (Send u1 t1 u2 t2) c) <> [])).
  { intros u1 t1 u2 t2 Hp.
    destruct (decide (trim (inputValue (ui c)) = [])) as [Hb|Hb].
    - by rewrite applyEvent_Send_blank.
    - rewrite applyEvent_Send_accepted by done. simpl. rewrite Hp. simpl.
      split; [lia|]. split; [discriminate | reflexivity]. }
  destruct ev as [v| |u1 t1 u2 t2|key u1 t1 u2 t2|pid o].
  - done.
  - simpl. unfold handleInputFocus. by destruct (showChat (ui c)).
  - apply Hsend. by apply Hser.
  - rewrite applyEvent_KeyPress. destruct (decide (key = js "Enter")); [|done].
    apply Hsend. by apply Hser.
  - rewrite applyEvent_Settle. simpl. simpl in Hen.
    destruct (pending c) as [|p [|q ps]] eqn:Hp; simpl in *; [| |lia].
    + split; [lia|]. split; [discriminate | congruence].
    + apply list_elem_of_singleton in Hen. subst pid.
      rewrite bool_decide_true by done. simpl.
      split; [lia|]. split; [discriminate | congruence].
Qed.

Lemma serial_run (evs : list Event) (c : Config) :
  reachable_serial c ->
  (fix ok (evs : list Event) (c : Config) : Prop :=
     match evs with
     | [] => True
     | ev :: evs' =>
         enabled c ev /\ (submits ev = true -> pending c = []) /\
         ok evs' (applyEvent ev c)
     end) evs c ->
  reachable_serial (run evs c).
Proof.
  revert c. induction evs as [|ev evs IH]; intros c Hr He; [done|].
  destruct He as (He1 & He2 & He3). simpl. apply IH; [|done].
  by apply serial_step.
Qed.

(** C9, as the code has it. In any configuration, with any number of
    requests in flight, the completion of a request clears [isTyping], and
    every other request that was in flight still is. The flag is true
    exactly while a request is outstanding in the runs where nothing is sent
    while a request is outstanding, in which at most one request is in
    flight. *)
Theorem completion_clears_typing_flag (c : Config) :
  (forall pid o,
     let c' := applyEvent (Settle pid o) c in
     isTyping (ui c') = false /\
     (forall q, q ∈ List.map placeholderId (pending c) -> q <> pid ->
                q ∈ List.map placeholderId (pending c'))) /\
  (reachable_serial c ->
     (isTyping (ui c) = true <-> pending c <> []) /\
     length (pending c) <= 1).
Proof.
  split.
  - intros pid o c'. split; [apply isTyping_Settle|].
    intros q Hq Hne. unfold c'. rewrite applyEvent_Settle. simpl.
    by apply removePending_ids_elem.
  - intros H. destruct (serial_invariant c H) as [Hl Ht]. by split.
Qed.

Lemma completion_clears_typing_flag_witness :
  let c := run oneInFlight initialConfig in
  (forall pid o,
     let c' := applyEvent (Settle pid o) c in
     isTyping (ui c') = false /\
     (forall q, q ∈ List.map placeholderId (pending c) -> q <> pid ->
                q ∈ List.map placeholderId (pending c'))) /\
  ((isTyping (ui c) = true <-> pending c <> []) /\
   length (pending c) <= 1).
Proof.
  destruct (completion_clears_typing_flag (run oneInFlight initialConfig))
    as [H1 H2].
  split; [exact H1|]. apply H2.
  apply serial_run; [apply serial_init|].
  simpl. repeat split; try done; by_computation.
Defined.

(** ** TypewriterText *)

Lemma ticks_cleared (n : nat) (tw : Typewriter) :
  interval tw = None -> ticks n tw = (tw, []).
Proof.
  intros H. induction n as [|n IH]; [reflexivity|].
  simpl. unfold tick. rewrite H. by rewrite IH.
Qed.

(** [k] periods of a live timer whose callback has run [idx] times. *)
Lemma ticks_live (fullText : jsstring) (k idx : nat) (d : jsstring) :
  idx < length fullText ->
  ticks k {| displayed := d; interval := Some (idx, fullText) |} =
  ({| displayed :=
        match k with
        | 0 => d
        | S _ => slice0 fullText (idx + Nat.min k (length fullText - idx))
        end;
      interval :=
        if idx + k <? length fullText then Some (idx + k, fullText) else None |},
   List.map (slice0 fullText)
     (seq (S idx) (Nat.min k (length fullText - idx)))).
Proof.
  revert idx d. induction k as [|k IH]; intros idx d Hlt.
  - simpl. rewrite Nat.add_0_r.
    destruct (Nat.ltb_spec idx (length fullText)); [reflexivity | lia].
  - cbn [ticks]. unfold tick. cbn [interval].
    destruct (Nat.leb_spec (length fullText) (idx + 1)) as [Hle|Hgt].
    + rewrite ticks_cleared by reflexivity.
      replace (Nat.min (S k) (length fullText - idx)) with 1 by lia.
      destruct (Nat.ltb_spec (idx + S k) (length fullText)); [lia|].
      simpl. by replace (idx + 1) with (S idx) by lia.
    + rewrite IH by lia.
      replace (Nat.min (S k) (length fullText - idx))
        with (S (Nat.min k (length fullText - (idx + 1)))) by lia.
      replace (idx + 1 + k) with (idx + S k) by lia.
      replace (idx + S (Nat.min k (length fullText - (idx + 1))))
        with (idx + 1 + Nat.min k (length fullText - (idx + 1))) by lia.
      cbn [seq List.map app]. replace (idx + 1) with (S idx) by lia.
      f_equal. f_equal. destruct k; [|reflexivity].
      simpl. by rewrite Nat.add_0_r.
Qed.

Lemma runEffect_nonempty (fullText : jsstring) (tw : Typewriter) :
  0 < length fullText ->
  runEffect fullText tw =
  ({| displayed := []; interval := Some (0, fullText) |}, [[]]).
Proof. destruct fullText; simpl; [lia | reflexivity]. Qed.

Lemma reveal_closed_form (fullText : jsstring) (k : nat) (tw : Typewriter) :
  0 < length fullText ->
  reveal fullText k tw =
  ({| displayed := slice0 fullText (Nat.min k (length fullText));
      interval := if k <? length fullText then Some (k, fullText) else None |},
   prefixes fullText (Nat.min k (length fullText))).
Proof.
  intros H. unfold reveal. rewrite runEffect_nonempty by done.
  rewrite ticks_live by done. rewrite Nat.sub_0_r. simpl.
  f_equal. f_equal. by destruct k.
Qed.

Lemma prefixes_lengths (s : jsstring) (n : nat) :
  n <= length s -> List.map length (prefixes s n) = seq 0 (S n).
Proof.
  intros H. unfold prefixes. rewrite List.map_map.
  rewrite <- (List.map_id (seq 0 (S n))) at 2.
  apply List.map_ext_in. intros i Hi. apply in_seq in Hi.
  apply length_slice0. lia.
Qed.

Lemma prefixes_NoDup (s : jsstring) (n : nat) :
  n <= length s -> NoDup (prefixes s n).
Proof.
  intros H. apply (NoDup_fmap_1 length).
  change (length <$> prefixes s n) with (List.map length (prefixes s n)).
  rewrite prefixes_lengths by done. apply NoDup_seq.
Qed.

(** C5. For a text of [N > 0] code units, the effect and the timer make
    exactly [N + 1] calls to [setDisplayed], with the prefixes of lengths
    [0, 1, ..., N] in this order, pairwise distinct; the interval is then
    cleared, further periods change nothing, and the whole text is shown.
    Whenever the effect runs, the displayed string is reset to the empty
    string whatever the component showed, and the effect runs whenever
    [fullText] changed. For the empty text no interval is started: the timer
    produces nothing and the displayed string stays empty. *)
Theorem typewriter_reveals_prefixes (fullText : jsstring) (k : nat)
    (tw : Typewriter) :
  0 < length fullText -> length fullText <= k ->
  let N := length fullText in
  let r := reveal fullText k tw in
  r.2 = prefixes fullText N /\
  length r.2 = S N /\
  List.map length r.2 = seq 0 (S N) /\
  NoDup r.2 /\
  displayed r.1 = fullText /\
  interval r.1 = None /\
  (forall n, ticks n r.1 = (r.1, [])) /\
  (forall next tw', displayed (runEffect next tw').1 = []) /\
  (forall prev next tw',
     prev <> next -> displayed (rerender prev next tw').1 = []) /\
  (forall n tw',
     ticks n (runEffect [] tw').1 = ((runEffect [] tw').1, []) /\
     displayed (runEffect [] tw').1 = [] /\
     interval (runEffect [] tw').1 = None).
Proof.
  intros Hpos Hk N r. unfold r. rewrite reveal_closed_form by done.
  replace (Nat.min k (length fullText)) with N by (unfold N; lia).
  destruct (Nat.ltb_spec k (length fullText)); [lia|]. simpl.
  split; [done|]. split.
  { unfold prefixes. by rewrite length_map, length_seq. }
  split; [by apply prefixes_lengths|].
  split; [by apply prefixes_NoDup|].
  split; [by apply slice0_all|].
  split; [done|].
  split. { intros n. by apply ticks_cleared. }
  split. { intros next tw'. unfold runEffect. by destruct (truthy next). }
  split.
  { intros prev next tw' Hne. unfold rerender.
    destruct (decide (prev = next)); [done|].
    unfold runEffect. by destruct (truthy next). }
  intros n tw'. simpl. split; [|done]. by apply ticks_cleared.
Qed.

Lemma typewriter_reveals_prefixes_witness :
  let r := reveal (js "hi there") 8 mountTypewriter in
  r.2 = prefixes (js "hi there") 8 /\
  length r.2 = 9 /\
  List.map length r.2 = seq 0 9 /\
  NoDup r.2 /\
  displayed r.1 = js "hi there" /\
  interval r.1 = None /\
  (forall n, ticks n r.1 = (r.1, [])) /\
  (forall next tw', displayed (runEffect next tw').1 = []) /\
  (forall prev next tw',
     prev <> next -> displayed (rerender prev next tw').1 = []) /\
  (forall n tw',
     ticks n (runEffect [] tw').1 = ((runEffect [] tw').1, []) /\
     displayed (runEffect [] tw').1 = [] /\
     interval (runEffect [] tw').1 = None).
Proof.
  apply (typewriter_reveals_prefixes (js "hi there") 8 mountTypewriter).
  - vm_compute. lia.
  - vm_compute. lia.
Defined.

(** * Further properties of the conversation controller *)



(** The handler is idempotent: the input field is cleared by an accepted
    send, so a second click or Enter right after it does nothing. *)
Theorem second_send_ignored u1 t1 u2 t2 u3 t3 u4 t4 (c : Config) :
  applyEvent (Send u3 t3 u4 t4) (applyEvent (Send u1 t1 u2 t2) c) =
  applyEvent (Send u1 t1 u2 t2) c.
Proof.
  destruct (decide (trim (inputValue (ui c)) = [])) as [Hb|Hb].
  - rewrite (applyEvent_Send_blank u1 t1 u2 t2 c Hb).
    by apply applyEvent_Send_blank.
  - apply applyEvent_Send_blank.
    by rewrite applyEvent_Send_accepted.
Qed.

Lemma requestsSent_Send_accepted u1 t1 u2 t2 (c : Config) :
  trim (inputValue (ui c)) <> [] ->
  requestsSent (applyEvent (Send u1 t1 u2 t2) c) = S (requestsSent c).
Proof.
  intros H. rewrite applyEvent_Send_accepted by done.
  unfold requestsSent. simpl. rewrite List.filter_app, length_app. simpl. lia.
Qed.

Lemma requestsSent_Settle pid o (c : Config) :
  requestsSent (applyEvent (Settle pid o) c) = requestsSent c.
Proof.
  rewrite applyEvent_Settle. unfold requestsSent. simpl.
  rewrite List.filter_app, length_app.
  destruct o as [e|st [e|r]]; simpl; lia.
Qed.

(** The conversation is a sequence of pairs: in every reachable
    configuration there are two messages per request sent, a user message
    at each even index and an assistant message at each odd one. *)
Theorem conversation_alternates (c : Config) :
  reachable c ->
  length (messages (ui c)) = 2 * requestsSent c /\
  (forall i m, messages (ui c) !! i = Some m -> isUser m = Nat.even i).
Proof.
  induction 1 as [|c ev _ [IHl IHa] Hen].
  { split; [reflexivity|]. intros i m H. inversion H. }
  assert (Hsend : forall u1 t1 u2 t2,
    length (messages (ui (applyEvent (Send u1 t1 u2 t2) c))) =
      2 * requestsSent (applyEvent (Send u1 t1 u2 t2) c) /\
    (forall i m, messages (ui (applyEvent (Send u1 t1 u2 t2) c)) !! i = Some m ->
                 isUser m = Nat.even i)).
  { intros u1 t1 u2 t2.
    destruct (decide (trim (inputValue (ui c)) = [])) as [Hb|Hb].
    { by rewrite applyEvent_Send_blank. }
    rewrite requestsSent_Send_accepted by done.
    rewrite applyEvent_Send_accepted by done. simpl.
    split; [rewrite length_app; simpl; lia|].
    intros i m Hi.
    destruct (decide (i < length (messages (ui c)))) as [Hlt|Hge].
    { rewrite lookup_app_l in Hi by done. by apply IHa. }
    rewrite lookup_app_r in Hi by lia.
    assert (Hev : Nat.even (length (messages (ui c))) = true).
    { rewrite IHl. rewrite Nat.even_mul. reflexivity. }
    destruct (i - length (messages (ui c))) as [|[|k]] eqn:Hk;
      simpl in Hi; try discriminate.
    - injection Hi as <-. simpl.
      replace i with (length (messages (ui c))) by lia. by rewrite Hev.
    - injection Hi as <-. simpl.
      replace i with (S (length (messages (ui c)))) by lia.
      rewrite Nat.even_succ, <- Nat.negb_even, Hev. reflexivity. }
  destruct ev as [v| |u1 t1 u2 t2|key u1 t1 u2 t2|pid o].
  - done.
  - simpl. unfold handleInputFocus, requestsSent in *.
    by destruct (showChat (ui c)).
  - apply Hsend.
  - rewrite applyEvent_KeyPress. destruct (decide (key = js "Enter")); [|done].
    apply Hsend.
  - rewrite requestsSent_Settle, messages_Settle, replaceText_length.
    split; [done|]. intros i m. rewrite replaceText_lookup.
    destruct (messages (ui c) !! i) as [m0|] eqn:Hi; simpl; [|discriminate].
    intros [= <-]. rewrite <- (IHa i m0 Hi).
    by destruct (decide (id m0 = pid)).
Qed.

Lemma conversation_alternates_witness :
  let c := run twoInFlight initialConfig in
  length (messages (ui c)) = 2 * requestsSent c /\
  (forall i m, messages (ui c) !! i = Some m -> isUser m = Nat.even i).
Proof.
  apply (conversation_alternates (run twoInFlight initialConfig)).
  exact twoInFlight_reachable.
Defined.

(** A message whose id is not reserved by a suspended invocation is never
    touched again: it stays in its slot, unchanged, under every event. *)
Theorem unreserved_message_frozen (c : Config) (ev : Event) (i : nat)
    (m : Message) :
  enabled c ev ->
  messages (ui c) !! i = Some m ->
  id m ∉ List.map placeholderId (pending c) ->
  messages (ui (applyEvent ev c)) !! i = Some m.
Proof.
  intros Hen Hi Hfree.
  assert (Hsend : forall u1 t1 u2 t2,
            messages (ui (applyEvent (Send u1 t1 u2 t2) c)) !! i = Some m).
  { intros u1 t1 u2 t2.
    destruct (decide (trim (inputValue (ui c)) = [])) as [Hb|Hb].
    - by rewrite applyEvent_Send_blank.
    - rewrite applyEvent_Send_accepted by done. simpl.
      by apply lookup_app_l_Some. }
  destruct ev as [v| |u1 t1 u2 t2|key u1 t1 u2 t2|pid o].
  - done.
  - simpl. unfold handleInputFocus. by destruct (showChat (ui c)).
  - apply Hsend.
  - rewrite applyEvent_KeyPress. destruct (decide (key = js "Enter")); [|done].
    apply Hsend.
  - simpl in Hen. rewrite messages_Settle, replaceText_lookup, Hi. simpl.
    destruct (decide (id m = pid)) as [E|_]; [|done].
    subst pid. contradiction.
Qed.

Lemma unreserved_message_frozen_witness :
  let c := run twoInFlight initialConfig in
  let u := {| id := js "ua"; text := js "a"; isUser := true; timestamp := 1 |} in
  messages
    (ui (applyEvent (Settle (js "pa") (FetchRejects (js "down"))) c)) !! 0 =
  Some u.
Proof.
  apply (unreserved_message_frozen (run twoInFlight initialConfig)
           (Settle (js "pa") (FetchRejects (js "down"))) 0).
  - by_computation.
  - reflexivity.
  - by_computation.
Defined.

(** User messages are immutable: in a reachable configuration no event
    changes a user message or moves it. *)
Theorem user_message_immutable (c : Config) (ev : Event) (i : nat)
    (m : Message) :
  reachable c -> enabled c ev ->
  messages (ui c) !! i = Some m -> isUser m = true ->
  messages (ui (applyEvent ev c)) !! i = Some m.
Proof.
  intros Hr Hen Hi Hu. apply (unreserved_message_frozen c ev i m Hen Hi).
  intros Hin. apply reachable_wellFormed in Hr as (Hnd & _ & Hp).
  destruct (Hp _ Hin) as (j & m' & Hj & Hid & Hu' & _).
  assert (i = j) by (eapply lookup_unique_id; eauto).
  subst j. congruence.
Qed.

Lemma user_message_immutable_witness :
  let c := run twoInFlight initialConfig in
  let u := {| id := js "ub"; text := js "b"; isUser := true; timestamp := 3 |} in
  messages
    (ui (applyEvent (Settle (js "pb") (FetchRejects (js "down"))) c)) !! 2 =
  Some u.
Proof.
  apply (user_message_immutable (run twoInFlight initialConfig)
           (Settle (js "pb") (FetchRejects (js "down"))) 2).
  - exact twoInFlight_reachable.
  - by_computation.
  - reflexivity.
  - reflexivity.
Defined.

(** The request of a suspended invocation carried the text of the user
    message that sits right before its placeholder. *)
Theorem request_matches_user_message (c : Config) (p : Pending) :
  reachable c -> p ∈ pending c ->
  exists i u m,
    messages (ui c) !! i = Some u /\ isUser u = true /\
    text u = requestMessage p /\
    messages (ui c) !! S i = Some m /\ id m = placeholderId p /\
    isUser m = false /\ text m = [].
Proof.
  intros Hr. revert p. induction Hr as [|c ev Hr IH Hen]; intros p Hp.
  { inversion Hp. }
  assert (Hwf := reachable_wellFormed c Hr).
  assert (Hsend : forall u1 t1 u2 t2 q,
    q ∈ pending (applyEvent (Send u1 t1 u2 t2) c) ->
    exists i u m,
      messages (ui (applyEvent (Send u1 t1 u2 t2) c)) !! i = Some u /\
      isUser u = true /\ text u = requestMessage q /\
      messages (ui (applyEvent (Send u1 t1 u2 t2) c)) !! S i = Some m /\
      id m = placeholderId q /\ isUser m = false /\ text m = []).
  { intros u1 t1 u2 t2 q.
    destruct (decide (trim (inputValue (ui c)) = [])) as [Hb|Hb].
    { rewrite applyEvent_Send_blank by done. apply IH. }
    rewrite applyEvent_Send_accepted by done. simpl.
    intros [Hq | ->%list_elem_of_singleton]%elem_of_app.
    - destruct (IH q Hq) as (i & u & m & Hi & ? & ? & Hm & ?).
      exists i, u, m. split; [by apply lookup_app_l_Some|].
      do 2 (split; [done|]). split; [by apply lookup_app_l_Some | done].
    - exists (length (messages (ui c))). eexists. eexists.
      split. { rewrite lookup_app_r by lia. rewrite Nat.sub_diag. reflexivity. }
      do 2 (split; [reflexivity|]).
      split; [rewrite lookup_app_r by lia;
      replace (S (length (messages (ui c))) - length (messages (ui c)))
        with 1 by lia; reflexivity | done]. }
  destruct ev as [v| |u1 t1 u2 t2|key u1 t1 u2 t2|pid o].
  - by apply IH.
  - assert (Hm : messages (handleInputFocus (ui c)) = messages (ui c)).
    { unfold handleInputFocus. by destruct (showChat (ui c)). }
    simpl. rewrite Hm. by apply IH.
  - by apply Hsend.
  - rewrite applyEvent_KeyPress in *.
    destruct (decide (key = js "Enter")); [by apply Hsend | by apply IH].
  - rewrite applyEvent_Settle in Hp. simpl in Hp.
    apply removePending_elem in Hp as [Hne Hp].
    destruct (IH p Hp) as (i & u & m & Hi & Hu & Ht & Hm & Hid & Hmu & Hmt).
    exists i, u, m. rewrite messages_Settle, !replaceText_lookup, Hi, Hm.
    simpl. destruct (decide (id m = pid)) as [E|_]; [congruence|].
    destruct (decide (id u = pid)) as [E|_]; [|done].
    exfalso. destruct Hwf as (Hnd & _ & Hpl).
    destruct (Hpl pid Hen) as (j & m' & Hj & Hid' & Hu' & _).
    assert (i = j) by (eapply lookup_unique_id; eauto; congruence).
    subst j. congruence.
Qed.

Lemma request_matches_user_message_witness :
  let c := run twoInFlight initialConfig in
  let p := {| placeholderId := js "pb"; requestMessage := js "b" |} in
  exists i u m,
    messages (ui c) !! i = Some u /\ isUser u = true /\
    text u = requestMessage p /\
    messages (ui c) !! S i = Some m /\ id m = placeholderId p /\
    isUser m = false /\ text m = [].
Proof.
  apply (request_matches_user_message (run twoInFlight initialConfig)
           {| placeholderId := js "pb"; requestMessage := js "b" |}).
  - exact twoInFlight_reachable.
  - vm_compute. apply list_elem_of_further, list_elem_of_here.
Defined.

Lemma replaceText_comm (p1 p2 t1 t2 : jsstring) (l : list Message) :
  p1 <> p2 ->
  replaceText p1 t1 (replaceText p2 t2 l) =
  replaceText p2 t2 (replaceText p1 t1 l).
Proof.
  intros Hne. unfold replaceText. rewrite !List.map_map.
  apply List.map_ext. intros m.
  repeat (case_decide; simpl in * ); congruence.
Qed.

Lemma removePending_comm (p1 p2 : jsstring) (ps : list Pending) :
  removePending p1 (removePending p2 ps) =
  removePending p2 (removePending p1 ps).
Proof.
  unfold removePending. induction ps as [|q ps IH]; simpl; [done|].
  destruct (bool_decide (placeholderId q = p1)) eqn:E1;
    destruct (bool_decide (placeholderId q = p2)) eqn:E2;
    simpl; rewrite ?E1, ?E2; simpl; by rewrite IH.
Qed.

(** Completions of different invocations commute: the state and the set of
    suspended invocations do not depend on which request settles first. *)
Theorem settles_commute (c : Config) (p1 p2 : jsstring)
    (o1 o2 : FetchOutcome) :
  p1 <> p2 ->
  ui (applyEvent (Settle p1 o1) (applyEvent (Settle p2 o2) c)) =
  ui (applyEvent (Settle p2 o2) (applyEvent (Settle p1 o1) c)) /\
  pending (applyEvent (Settle p1 o1) (applyEvent (Settle p2 o2) c)) =
  pending (applyEvent (Settle p2 o2) (applyEvent (Settle p1 o1) c)).
Proof.
  intros Hne. rewrite !applyEvent_Settle. simpl. split.
  - unfold setIsTyping, setMessages. simpl. f_equal.
    by apply replaceText_comm.
  - apply removePending_comm.
Qed.

Lemma settles_commute_witness :
  let c := run twoInFlight initialConfig in
  let o1 := FetchRejects (js "down") in
  let o2 := FetchResolves 200 (TextResolves (js "B")) in
  ui (applyEvent (Settle (js "pa") o1) (applyEvent (Settle (js "pb") o2) c)) =
  ui (applyEvent (Settle (js "pb") o2) (applyEvent (Settle (js "pa") o1) c)) /\
  pending (applyEvent (Settle (js "pa") o1) (applyEvent (Settle (js "pb") o2) c)) =
  pending (applyEvent (Settle (js "pb") o2) (applyEvent (Settle (js "pa") o1) c)).
Proof.
  apply (settles_commute (run twoInFlight initialConfig) (js "pa") (js "pb")
           (FetchRejects (js "down"))
           (FetchResolves 200 (TextResolves (js "B")))).
  vm_compute. discriminate.
Defined.

(** A continuation whose id matches no message (the list holds no such
    placeholder) leaves every message as it is; it still clears [isTyping]
    and completes normally. *)
Theorem unknown_id_changes_no_message (pid : jsstring) (o : FetchOutcome)
    (s : State) :
  pid ∉ ids (messages s) ->
  handleSendMessage_resume pid o s = (Normal, setIsTyping false s, caught o).
Proof.
  intros H. rewrite resume_eq. unfold setIsTyping, setMessages. simpl.
  by rewrite replaceText_absent.
Qed.

Lemma unknown_id_changes_no_message_witness :
  handleSendMessage_resume (js "zz") (FetchRejects (js "down"))
    (ui (run oneInFlight initialConfig)) =
  (Normal, setIsTyping false (ui (run oneInFlight initialConfig)),
   caught (FetchRejects (js "down"))).
Proof.
  apply (unknown_id_changes_no_message (js "zz") (FetchRejects (js "down"))
           (ui (run oneInFlight initialConfig))).
  by_computation.
Defined.

(** An empty response body leaves the message list exactly as it was: the
    placeholder keeps its empty text, so the bubble's [fullText] does not
    change and its effect does not run again, while the typing indicator is
    switched off. *)
Theorem empty_body_leaves_placeholder (c : Config) (pid : jsstring)
    (status : N) (tw : Typewriter) :
  reachable c -> pid ∈ List.map placeholderId (pending c) ->
  let c' := applyEvent (Settle pid (FetchResolves status (TextResolves []))) c in
  messages (ui c') = messages (ui c) /\
  isTyping (ui c') = false /\
  (forall i m, messages (ui c) !! i = Some m -> id m = pid ->
     exists m', messages (ui c') !! i = Some m' /\
                rerender (text m) (text m') tw = (tw, [])).
Proof.
  intros Hr Hin c'. apply reachable_wellFormed in Hr.
  destruct (settle_slot c pid (FetchResolves status (TextResolves [])) Hr Hin)
    as (i & m & Hi & Hid & Hu & Ht & Hm).
  assert (Hsame : messages (ui c') = messages (ui c)).
  { unfold c'. rewrite Hm. simpl. apply list_insert_id.
    rewrite Hi. f_equal. destruct m; simpl in *. by subst. }
  split; [done|]. split; [apply isTyping_Settle|].
  intros j m0 Hj Hid0. exists m0. rewrite Hsame. split; [done|].
  unfold rerender. by rewrite decide_True.
Qed.

Lemma empty_body_leaves_placeholder_witness :
  let c := run oneInFlight initialConfig in
  let c' := applyEvent (Settle (js "p1") (FetchResolves 200 (TextResolves []))) c in
  messages (ui c') = messages (ui c) /\
  isTyping (ui c') = false /\
  (forall i m, messages (ui c) !! i = Some m -> id m = js "p1" ->
     exists m', messages (ui c') !! i = Some m' /\
                rerender (text m) (text m') mountTypewriter =
                (mountTypewriter, [])).
Proof.
  apply (empty_body_leaves_placeholder (run oneInFlight initialConfig)
           (js "p1") 200 mountTypewriter).
  - exact oneInFlight_reachable.
  - by_computation.
Defined.

(** The typing indicator is never shown when nothing is outstanding, the
    logo is visible exactly while the chat is hidden, and the chat is shown
    as soon as the list holds a message or a request is outstanding. *)
Theorem flags_consistent (c : Config) :
  reachable c ->
  (isTyping (ui c) = true -> pending c <> []) /\
  logoVisible (ui c) = negb (showChat (ui c)) /\
  (messages (ui c) <> [] -> showChat (ui c) = true) /\
  (pending c <> [] -> messages (ui c) <> []).
Proof.
  induction 1 as [|c ev _ (IHt & IHl & IHm & IHp) Hen].
  { simpl. repeat split; congruence. }
  assert (Hsend : forall u1 t1 u2 t2,
    let c' := applyEvent (Send u1 t1 u2 t2) c in
    (isTyping (ui c') = true -> pending c' <> []) /\
    logoVisible (ui c') = negb (showChat (ui c')) /\
    (messages (ui c') <> [] -> showChat (ui c') = true) /\
    (pending c' <> [] -> messages (ui c') <> [])).
  { intros u1 t1 u2 t2 c'. unfold c'.
    destruct (decide (trim (inputValue (ui c)) = [])) as [Hb|Hb].
    { by rewrite applyEvent_Send_blank. }
    rewrite applyEvent_Send_accepted by done. simpl.
    repeat split; try done; intros _ E; by apply app_eq_nil in E as [_ ?]. }
  destruct ev as [v| |u1 t1 u2 t2|key u1 t1 u2 t2|pid o].
  - done.
  - simpl. unfold handleInputFocus.
    destruct (showChat (ui c)) eqn:E; simpl; [by rewrite E | done].
  - apply Hsend.
  - rewrite applyEvent_KeyPress. destruct (decide (key = js "Enter")); [|done].
    apply Hsend.
  - rewrite applyEvent_Settle. simpl. simpl in Hen.
    split; [discriminate|]. split; [done|]. split.
    + intros Hne. apply IHm. intros E. rewrite E in Hne. by apply Hne.
    + intros _. assert (Hp : pending c <> []).
      { intros E. rewrite E in Hen. inversion Hen. }
      specialize (IHp Hp). intros E. apply IHp.
      apply (f_equal length) in E. rewrite replaceText_length in E.
      by destruct (messages (ui c)).
Qed.

Lemma flags_consistent_witness :
  let c := run oneInFlight initialConfig in
  (isTyping (ui c) = true -> pending c <> []) /\
  logoVisible (ui c) = negb (showChat (ui c)) /\
  (messages (ui c) <> [] -> showChat (ui c) = true) /\
  (pending c <> [] -> messages (ui c) <> []).
Proof.
  apply (flags_consistent (run oneInFlight initialConfig)).
  exact oneInFlight_reachable.
Defined.

(** * Further properties of TypewriterText *)

(** The reveal at any moment: after [k] periods the component shows the
    first [min k N] code units, it has made [min k N + 1] calls to
    [setDisplayed], and the interval is live exactly while [k < N]. *)
Theorem typewriter_progress (fullText : jsstring) (k : nat) (tw : Typewriter) :
  0 < length fullText ->
  let r := reveal fullText k tw in
  displayed r.1 = slice0 fullText (Nat.min k (length fullText)) /\
  length (displayed r.1) = Nat.min k (length fullText) /\
  (interval r.1 <> None <-> k < length fullText) /\
  r.2 = prefixes fullText (Nat.min k (length fullText)).
Proof.
  intros H r. unfold r. rewrite reveal_closed_form by done. simpl.
  split; [done|]. split; [apply length_slice0; lia|]. split; [|done].
  destruct (Nat.ltb_spec k (length fullText)); split; try done; lia.
Qed.

Lemma typewriter_progress_witness :
  let r := reveal (js "hi there") 3 mountTypewriter in
  displayed r.1 = slice0 (js "hi there") (Nat.min 3 (length (js "hi there"))) /\
  length (displayed r.1) = Nat.min 3 (length (js "hi there")) /\
  (interval r.1 <> None <-> 3 < length (js "hi there")) /\
  r.2 = prefixes (js "hi there") (Nat.min 3 (length (js "hi there"))).
Proof.
  apply (typewriter_progress (js "hi there") 3 mountTypewriter).
  vm_compute. lia.
Defined.

(** * The landing placeholder animation *)

Lemma pageReachable_run (evs : list PageEvent) (p : Page) :
  pageReachable p -> pageRunEnabled evs p -> pageReachable (runPage evs p).
Proof.
  revert p. induction evs as [|ev evs IH]; intros p Hr He; [done|].
  destruct He as [He1 He2]. simpl. apply IH; [|done].
  by apply page_step.
Qed.

Lemma showChat_monotone (ev : Event) (c : Config) :
  showChat (ui c) = true -> showChat (ui (applyEvent ev c)) = true.
Proof.
  intros H.
  assert (Hsend : forall u1 t1 u2 t2,
            showChat (ui (applyEvent (Send u1 t1 u2 t2) c)) = true).
  { intros u1 t1 u2 t2.
    destruct (decide (trim (inputValue (ui c)) = [])) as [Hb|Hb].
    - by rewrite applyEvent_Send_blank.
    - by rewrite applyEvent_Send_accepted. }
  destruct ev as [v| |u1 t1 u2 t2|key u1 t1 u2 t2|pid o].
  - done.
  - simpl. unfold handleInputFocus. by rewrite H.
  - apply Hsend.
  - rewrite applyEvent_KeyPress. destruct (decide (key = js "Enter")); [|done].
    apply Hsend.
  - by rewrite applyEvent_Settle.
Qed.

Ltac landing_fields :=
  cbn [placeholderText placeholderIndex timer pauses negb] in *.

Lemma landingInv_commit (show show' : bool) (l : Landing) :
  (show = true -> show' = true) ->
  landingInv show l ->
  landingInv show' (commitLanding (placeholderIndex l) show show' l).
Proof.
  intros Hmono (H1 & H2 & H3 & H4 & H5 & H6). unfold commitLanding.
  destruct (decide (placeholderIndex l = placeholderIndex l /\ show = show'))
    as [[_ <-]|Hn]; [done|].
  assert (show = false /\ show' = true) as [-> ->].
  { destruct show, show'; try tauto; by specialize (Hmono eq_refl). }
  unfold landingInv, placeholderEffect; landing_fields.
  repeat split; try done.
Qed.

Lemma landingInv_timer (show : bool) (l : Landing) :
  landingInv show l -> landingInv show (timerFires show l).
Proof.
  intros Hinv. pose proof Hinv as (H1 & H2 & H3 & H4 & H5 & H6).
  unfold timerFires. destruct (timer l) as [k|] eqn:Ht; [|done].
  destruct (H4 k eq_refl) as (-> & -> & Hp).
  destruct (Nat.ltb_spec (placeholderIndex l) (length fullPlaceholder)).
  - unfold commitLanding; landing_fields.
    destruct (decide _) as [[E _]|_]; [lia|].
    unfold landingInv, placeholderEffect; landing_fields.
    split; [done|]. split; [lia|]. split; [lia|]. split.
    { intros j [= <-]. done. }
    split; [lia | discriminate].
  - unfold landingInv; landing_fields. rewrite Hp.
    split; [done|]. split; [done|]. split; [lia|]. split; [discriminate|].
    split; [lia | done].
Qed.

Lemma landingInv_pause (show : bool) (l : Landing) :
  landingInv show l -> landingInv show (pauseFires show l).
Proof.
  intros Hinv. pose proof Hinv as (H1 & H2 & H3 & H4 & H5 & H6).
  unfold pauseFires. destruct (pauses l) as [|n] eqn:Hp; [done|].
  assert (n = 0) as -> by lia. specialize (H5 eq_refl).
  unfold commitLanding; landing_fields.
  destruct (decide _) as [[E _]|_].
  { rewrite H5 in E. vm_compute in E. discriminate. }
  unfold landingInv, placeholderEffect; landing_fields.
  split; [done|]. split; [lia|]. split; [lia|]. split.
  { intros j. destruct show; cbn [negb]; [discriminate|]. intros [= <-]. done. }
  split; [lia|]. intros ->. discriminate.
Qed.

(** In every reachable page the placeholder text is the prefix of the
    prompt counted by the index, the index never exceeds the prompt's
    length, a pending 150ms timeout closes over the current index and
    exists only while the chat is hidden, and at most one timeout is
    pending; while the chat is hidden exactly one is, so the animation
    never stalls. *)
Theorem landing_invariant (p : Page) :
  pageReachable p -> landingInv (showChat (ui (config p))) (landing p).
Proof.
  induction 1 as [|p ev _ IH Hen].
  - unfold landingInv, initialPage, placeholderEffect; cbn [landing config].
    landing_fields. cbn [initialConfig ui initialState showChat negb].
    split; [done|]. split; [lia|]. split; [lia|]. split.
    { intros j [= <-]. done. }
    split; [lia | discriminate].
  - destruct ev as [ev| |]; simpl.
    + apply landingInv_commit; [|done]. apply showChat_monotone.
    + by apply landingInv_timer.
    + by apply landingInv_pause.
Qed.

Lemma landing_invariant_witness :
  let p := runPage [TimerFires; TimerFires; Chat Focus; PauseFires] initialPage in
  landingInv (showChat (ui (config p))) (landing p).
Proof.
  apply (landing_invariant
           (runPage [TimerFires; TimerFires; Chat Focus; PauseFires] initialPage)).
  apply pageReachable_run; [exact page_init | by_computation].
Defined.

(** While the chat is hidden the prompt is typed one code unit per 150ms
    timeout; the timeout after the last code unit starts the 3000ms pause
    instead, and when the pause fires the page is back in its initial
    state: the animation loops. *)
Theorem placeholder_types_and_loops :
  (forall k, k <= length fullPlaceholder ->
     landing (runPage (replicate k TimerFires) initialPage) =
     {| placeholderText := slice0 fullPlaceholder k; placeholderIndex := k;
        timer := Some k; pauses := 0 |}) /\
  landing
    (runPage (replicate (S (length fullPlaceholder)) TimerFires) initialPage) =
    {| placeholderText := fullPlaceholder;
       placeholderIndex := length fullPlaceholder;
       timer := None; pauses := 1 |} /\
  runPage (replicate (S (length fullPlaceholder)) TimerFires ++ [PauseFires])
    initialPage = initialPage.
Proof.
  split; [|split; vm_compute; reflexivity].
  intros k Hk. change (length fullPlaceholder) with 26 in Hk.
  do 27 (destruct k as [|k]; [vm_compute; reflexivity|]). lia.
Qed.

Lemma placeholder_types_and_loops_witness :
  landing (runPage (replicate 5 TimerFires) initialPage) =
  {| placeholderText := slice0 fullPlaceholder 5; placeholderIndex := 5;
     timer := Some 5; pauses := 0 |}.
Proof.
  apply (proj1 placeholder_types_and_loops 5).
  vm_compute. lia.
Defined.

(** Once the chat is shown no 150ms timeout is pending, so the prompt is not
    typed any further and the input shows its fixed placeholder. No chat
    event cancels a pending pause: if one is pending it still fires, and
    clears the text and the index without restarting the animation. *)
Theorem chat_shown_stops_typing (p : Page) :
  pageReachable p -> showChat (ui (config p)) = true ->
  timer (landing p) = None /\
  applyPageEvent TimerFires p = p /\
  inputPlaceholder (showChat (ui (config p))) (landing p) =
    js "Type your message..." /\
  (forall ev, pauses (landing (applyPageEvent (Chat ev) p)) = pauses (landing p)) /\
  (pauses (landing p) = 0 -> applyPageEvent PauseFires p = p) /\
  (pauses (landing p) = 1 ->
   landing (applyPageEvent PauseFires p) =
   {| placeholderText := []; placeholderIndex := 0; timer := None;
      pauses := 0 |}).
Proof.
  intros Hr Hshow. apply landing_invariant in Hr.
  destruct Hr as (H1 & H2 & H3 & H4 & H5 & H6). rewrite Hshow in *.
  assert (Ht : timer (landing p) = None).
  { destruct (timer (landing p)) as [k|]; [|done].
    by destruct (H4 k eq_refl) as (_ & ? & _). }
  destruct p as [c l]. cbn [config landing] in *.
  split; [done|]. split.
  { unfold applyPageEvent, timerFires. cbn [config landing]. by rewrite Ht. }
  split; [reflexivity|]. split.
  { intros ev. cbn [applyPageEvent landing config]. unfold commitLanding.
    by destruct (decide _). }
  split.
  - intros Hp. unfold applyPageEvent, pauseFires. cbn [config landing].
    by rewrite Hp.
  - intros Hp. unfold applyPageEvent, pauseFires. cbn [config landing].
    rewrite Hp, Hshow. unfold commitLanding. landing_fields.
    destruct (decide _) as [[E _]|_].
    { rewrite (H5 Hp) in E. vm_compute in E. discriminate. }
    unfold placeholderEffect. landing_fields. reflexivity.
Qed.

Lemma chat_shown_stops_typing_witness :
  let p :=
    runPage (replicate 27 TimerFires ++ [Chat Focus]) initialPage in
  timer (landing p) = None /\
  applyPageEvent TimerFires p = p /\
  inputPlaceholder (showChat (ui (config p))) (landing p) =
    js "Type your message..." /\
  (forall ev, pauses (landing (applyPageEvent (Chat ev) p)) = pauses (landing p)) /\
  (pauses (landing p) = 0 -> applyPageEvent PauseFires p = p) /\
  (pauses (landing p) = 1 ->
   landing (applyPageEvent PauseFires p) =
   {| placeholderText := []; placeholderIndex := 0; timer := None;
      pauses := 0 |}).
Proof.
  apply (chat_shown_stops_typing
           (runPage (replicate 27 TimerFires ++ [Chat Focus]) initialPage)).
  - apply pageReachable_run; [exact page_init | by_computation].
  - vm_compute. reflexivity.
Defined.

(** The [placeholder] attribute of the input, on every reachable page: the
    fixed text while the chat is shown; otherwise either empty or a non-empty
    prefix of the prompt followed by the cursor bar, never the bar alone. *)
Theorem input_placeholder_shape (p : Page) :
  pageReachable p ->
  let a := inputPlaceholder (showChat (ui (config p))) (landing p) in
  (showChat (ui (config p)) = true -> a = js "Type your message...") /\
  (showChat (ui (config p)) = false ->
   a = [] \/
   exists k, 1 <= k <= length fullPlaceholder /\
             a = slice0 fullPlaceholder k ++ js "|").
Proof.
  intros Hr a. apply landing_invariant in Hr.
  destruct Hr as (H1 & H2 & _). unfold a, inputPlaceholder.
  split; intros ->; [reflexivity|]. cbn [negb]. rewrite H1.
  destruct (placeholderIndex (landing p)) as [|k] eqn:Hk.
  - left. reflexivity.
  - right. exists (S k). split; [lia|]. reflexivity.
Qed.

Lemma input_placeholder_shape_witness :
  let p := runPage [TimerFires; TimerFires; TimerFires] initialPage in
  let a := inputPlaceholder (showChat (ui (config p))) (landing p) in
  (showChat (ui (config p)) = true -> a = js "Type your message...") /\
  (showChat (ui (config p)) = false ->
   a = [] \/
   exists k, 1 <= k <= length fullPlaceholder /\
             a = slice0 fullPlaceholder k ++ js "|").
Proof.
  apply (input_placeholder_shape
           (runPage [TimerFires; TimerFires; TimerFires] initialPage)).
  apply pageReachable_run; [exact page_init | by_computation].
Defined.
